(** * GTN Manager: item model, sorting engines and note search

    A shallow embedding of [FDS_Project_MagdalenaZheleva.cpp].

    Conventions of the embedding.
    - [std::string] is a list of characters ([text]); string literals of the
      source are written [str "..."].
    - A [vector<T*>] is a list of addresses; the objects live in a store
      [addr -> T].  The sorting and search engines never write to the
      objects, so the store is a read-only parameter.
    - [int] indices are unbounded integers: [nat] where the source keeps
      them non-negative, [Z] where a negative value can occur
      ([tasks.size() - 1] of an empty vector).  Overflow of [int] is not
      modelled.
    - [double] progress values are exact rationals ([Q]); NaN and the
      infinities are outside the model.
    - [cout] is the text written so far. *)

From Stdlib Require Import ZArith QArith Ascii String List Lia Permutation Sorted.
From stdpp Require Import base list strings sorting.
From Equations Require Import Equations.

Local Open Scope nat_scope.

(** ** Text *)

Abbreviation text := (list ascii).

Definition str (s : string) : text := list_ascii_of_string s.

#[global] Instance ascii_inhabited : Inhabited ascii := populate Ascii.zero.

Definition newline : ascii := "010"%char.

(** A literal that starts with a line feed: [nl "x"] is the source's
    ["\nx"]. *)
Definition nl (s : string) : text := newline :: str s.

(** [std::endl] as far as the written characters go. *)
Definition endl : text := [newline].

(** [std::string::pop_back]. *)
Definition pop_back (s : text) : text := removelast s.

(** ** Item model *)

Definition addr := nat.

(** The fields of the base class [Item]. *)
Record Item := mkItem { title : text; description : text }.

Inductive TaskVariant :=
| IsTask
| IsRecurringTask (recurrenceInterval : text)
| IsOneTimeTask.

Record Task := mkTask {
  task_item : Item;
  deadline : text;
  priority : Z;
  task_variant : TaskVariant }.

Inductive NoteVariant :=
| IsNote
| IsProtectedNote (password : text)
| IsPublicNote.

Record Note := mkNote {
  note_item : Item;
  tags : list text;
  note_variant : NoteVariant }.

Inductive GoalVariant :=
| IsGoal
| IsQuantifiableGoal
| IsNonQuantifiableGoal.

Record Goal := mkGoal {
  goal_item : Item;
  progress : Q;
  goal_variant : GoalVariant }.

(** The sentinel of [NonQuantifiableGoal::getProgress]. *)
Definition sentinel : Q := (-1)%Q.

(** [Goal::getProgress], [QuantifiableGoal::getProgress] and
    [NonQuantifiableGoal::getProgress], dispatched on the dynamic type. *)
Definition getProgress (g : Goal) : Q :=
  match goal_variant g with
  | IsGoal => progress g
  | IsQuantifiableGoal => progress g
  | IsNonQuantifiableGoal => sentinel
  end.

(** [Note::getDetails]: the header, every tag followed by ", ", and two
    [pop_back]s. *)
Definition Note_getDetails (n : Note) : text :=
  let details :=
    str "Title: " ++ title (note_item n)
    ++ nl "Description: " ++ description (note_item n)
    ++ nl "Tags: " in
  let details :=
    fold_left (fun details tag => details ++ (tag ++ str ", ")) (tags n) details in
  let details := pop_back details in
  let details := pop_back details in
  details.

(** [getDetails] of the three note classes. *)
Definition note_getDetails (n : Note) : text :=
  match note_variant n with
  | IsNote => Note_getDetails n
  | IsProtectedNote _ => Note_getDetails n ++ nl "Password Protected"
  | IsPublicNote => Note_getDetails n
  end.

(** [display] of the three note classes, as the text sent to [cout]. *)
Definition Note_display_tags (n : Note) : text :=
  fold_left (fun out tag => out ++ tag ++ str " ") (tags n) [].

Definition note_display (n : Note) : text :=
  match note_variant n with
  | IsNote =>
      str "Note: " ++ title (note_item n) ++ str " [Tags: "
        ++ Note_display_tags n ++ str "]" ++ endl
  | IsProtectedNote _ =>
      str "Protected Note: " ++ title (note_item n) ++ str " [Protected]" ++ endl
  | IsPublicNote =>
      str "Public Note: " ++ title (note_item n) ++ str " [Tags: "
        ++ Note_display_tags n ++ str "]" ++ endl
  end.

(** ** Loops

    A counted loop [for (int i = k - 1; i >= 0; i--) body] with [k >= 0]:
    the body runs at [k - 1], [k - 2], ..., [0], and not at all when [k] is
    [0] (the loop then starts at [-1]). *)
Fixpoint for_down {S : Type} (k : nat) (body : nat -> S -> S) (s : S) : S :=
  match k with
  | 0 => s
  | S i => for_down i body (body i s)
  end.

(** A [while] loop with a bound on the number of tests of its condition;
    [None] when the bound is reached before the condition fails. *)
Fixpoint while {S : Type} (fuel : nat) (cond : S -> bool) (body : S -> S) (s : S)
  : option S :=
  match fuel with
  | 0 => None
  | S fuel => if cond s then while fuel cond body (body s) else Some s
  end.

(** ** Progress ranking (heap sort) *)

(** [std::swap(goals[i], goals[j])]. *)
Definition swap (goals : list addr) (i j : nat) : list addr :=
  let tmp := goals !!! i in
  <[j := tmp]> (<[i := goals !!! j]> goals).

Section ProgressRanking.
Variable heap : addr -> Goal.

(** [goals[a]->getProgress() > goals[b]->getProgress() &&
     goals[a]->getProgress() != -1]. *)
Definition greater_and_quantified (goals : list addr) (a b : nat) : bool :=
  negb (Qle_bool (getProgress (heap (goals !!! a))) (getProgress (heap (goals !!! b))))
  && negb (Qeq_bool (getProgress (heap (goals !!! a))) sentinel).

(** [heapify]; the recursion goes down the tree, so [n - i] decreases. *)
Equations? heapify (goals : list addr) (n i : nat) : list addr by wf (n - i) lt :=
  heapify goals n i :=
    let largest := i in
    let left := 2 * i + 1 in
    let right := 2 * i + 2 in
    let largest :=
      if bool_decide (left < n) && greater_and_quantified goals left largest
      then left else largest in
    let largest :=
      if bool_decide (right < n) && greater_and_quantified goals right largest
      then right else largest in
    match decide (largest <> i) with
    | left _ => heapify (swap goals i largest) n largest
    | right _ => goals
    end.
Proof.
  subst largest1 largest0 largest left right.
  repeat case_match; try congruence;
    repeat match goal with
      | H : _ && _ = true |- _ => apply andb_true_iff in H; destruct H as [H ?]
      | H : bool_decide _ = true |- _ => apply bool_decide_eq_true in H
      end; lia.
Qed.

(** [heapSort]: build the heap, then move the root behind the shrinking
    heap [n] times. *)
Definition heapSort (goals : list addr) : list addr :=
  let n := length goals in
  let goals := for_down (n / 2) (fun i goals => heapify goals n i) goals in
  for_down n (fun i goals => heapify (swap goals 0 i) i 0) goals.

End ProgressRanking.

(** ** Key ordering (merge sort) *)

Local Open Scope Z_scope.

Definition nullptr : addr := 0%nat.

(** [v[i]] and [v[i] = x] for an [int] index. *)
Definition get (v : list addr) (i : Z) : addr := v !!! Z.to_nat i.
Definition set (v : list addr) (i : Z) (x : addr) : list addr := <[Z.to_nat i := x]> v.

(** A counted loop [for (int i = 0; i < n; i++) body]. *)
Definition for_up {S : Type} (n : Z) (body : Z -> S -> S) (s : S) : S :=
  fold_left (fun s i => body i s) (seqZ 0 n) s.

(** [std::string::compare]: bytewise on the common prefix, then by length. *)
Fixpoint text_compare (a b : text) : comparison :=
  match a, b with
  | [], [] => Eq
  | [], _ :: _ => Lt
  | _ :: _, [] => Gt
  | x :: a, y :: b =>
      match N.compare (N_of_ascii x) (N_of_ascii y) with
      | Eq => text_compare a b
      | c => c
      end
  end.

(** [a <= b] on [std::string]. *)
Definition text_le (a b : text) : bool :=
  match text_compare a b with Gt => false | _ => true end.

Section KeyOrdering.
Variable heap : addr -> Task.
(** The test [L[i]->key <= R[j]->key] of the merge loop. *)
Variable key_le : Task -> Task -> bool.

(** The first [while] loop of [merge]; the result is the state at its exit. *)
Equations? merge_loop (L R : list addr) (n1 n2 : Z) (tasks : list addr) (i j k : Z)
  : list addr * Z * Z * Z by wf (Z.to_nat (n1 - i) + Z.to_nat (n2 - j))%nat lt :=
  merge_loop L R n1 n2 tasks i j k :=
    match decide (i < n1 /\ j < n2) with
    | left _ =>
        if key_le (heap (get L i)) (heap (get R j))
        then merge_loop L R n1 n2 (set tasks k (get L i)) (i + 1) j (k + 1)
        else merge_loop L R n1 n2 (set tasks k (get R j)) i (j + 1) (k + 1)
    | right _ => (tasks, i, j, k)
    end.
Proof. all: lia. Qed.

(** The loops [while (i < n) { tasks[k] = src[i]; i++; k++; }] that copy
    what is left of [L], then of [R]. *)
Equations? copy_remaining (src : list addr) (n : Z) (tasks : list addr) (i k : Z)
  : list addr * Z * Z by wf (Z.to_nat (n - i)) lt :=
  copy_remaining src n tasks i k :=
    match decide (i < n) with
    | left _ => copy_remaining src n (set tasks k (get src i)) (i + 1) (k + 1)
    | right _ => (tasks, i, k)
    end.
Proof. lia. Qed.

(** [merge] and [mergeByDeadline], which differ in [key_le] only. *)
Definition merge_by (tasks : list addr) (left mid right : Z) : list addr :=
  let n1 := mid - left + 1 in
  let n2 := right - mid in
  let L := replicate (Z.to_nat n1) nullptr in
  let R := replicate (Z.to_nat n2) nullptr in
  let L := for_up n1 (fun i L => set L i (get tasks (left + i))) L in
  let R := for_up n2 (fun j R => set R j (get tasks (mid + 1 + j))) R in
  let i := 0 in
  let j := 0 in
  let k := left in
  let '(tasks, i, j, k) := merge_loop L R n1 n2 tasks i j k in
  let '(tasks, i, k) := copy_remaining L n1 tasks i k in
  let '(tasks, j, k) := copy_remaining R n2 tasks j k in
  tasks.

(** [mergeSort] and [mergeSortByDeadline]; [lo] and [hi] are the source's
    [left] and [right]. *)
Equations? mergeSort_by (tasks : list addr) (lo hi : Z) : list addr
  by wf (Z.to_nat (hi - lo)) lt :=
  mergeSort_by tasks lo hi :=
    if decide (lo >= hi) then tasks
    else
      let mid := lo + (hi - lo) `quot` 2 in
      let tasks := mergeSort_by tasks lo mid in
      let tasks := mergeSort_by tasks (mid + 1) hi in
      merge_by tasks lo mid hi.
Proof.
  all: subst mid; pose proof (Z.quot_lt (hi - lo) 2);
    pose proof (Z.quot_pos (hi - lo) 2); lia.
Qed.

End KeyOrdering.

Definition priority_le (a b : Task) : bool := priority a <=? priority b.
Definition deadline_le (a b : Task) : bool := text_le (deadline a) (deadline b).

Definition merge heap := merge_by heap priority_le.
Definition mergeSort heap := mergeSort_by heap priority_le.
Definition mergeByDeadline heap := merge_by heap deadline_le.
Definition mergeSortByDeadline heap := mergeSort_by heap deadline_le.

(** The two calls of [handleTasks]:
    [mergeSort(tasks, 0, tasks.size() - 1)] and
    [mergeSortByDeadline(tasks, 0, tasks.size() - 1)]; for an empty vector
    the last argument is [-1]. *)
Definition sortTasksByPriority (heap : addr -> Task) (tasks : list addr) : list addr :=
  mergeSort heap tasks 0 (Z.of_nat (length tasks) - 1).

Definition sortTasksByDeadline (heap : addr -> Task) (tasks : list addr) : list addr :=
  mergeSortByDeadline heap tasks 0 (Z.of_nat (length tasks) - 1).

Local Close Scope Z_scope.

(** ** Input streams

    What [std::getline(ss, str, delim)] needs of an [istringstream] or an
    [ifstream]: the characters not yet read and two state bits. *)
Record istream := mkIstream { buf : text; eofbit : bool; failbit : bool }.

Definition istream_of (s : text) : istream := mkIstream s false false.

(** Characters up to the first [delim], and what follows that [delim] when
    there is one. *)
Fixpoint read_until (delim : ascii) (s : text) : text * option text :=
  match s with
  | [] => ([], None)
  | c :: s =>
      if bool_decide (c = delim) then ([], Some s)
      else let '(token, rest) := read_until delim s in (c :: token, rest)
  end.

(** [std::getline(ss, str, delim)]: on a stream that is not [good()] it
    sets [failbit] and leaves [str]; otherwise [str] is replaced by the
    characters before the next [delim], which is consumed; reaching the end
    sets [eofbit], and [failbit] too when nothing at all was extracted. *)
Definition getline (ss : istream) (str : text) (delim : ascii) : istream * text :=
  if eofbit ss || failbit ss then (mkIstream (buf ss) (eofbit ss) true, str)
  else
    match read_until delim (buf ss) with
    | (token, Some rest) => (mkIstream rest false false, token)
    | (token, None) => (mkIstream [] true (bool_decide (token = [])), token)
    end.

(** The number of further [getline]s that can succeed is at most this. *)
Definition istream_left (ss : istream) : nat :=
  if eofbit ss || failbit ss then 0 else S (length (buf ss)).

Lemma read_until_length delim s token rest :
  read_until delim s = (token, Some rest) -> length rest < length s.
Proof.
  revert token; induction s as [|c s IH]; intros token; simpl; [discriminate|].
  case_bool_decide; [intros [= <- <-]; lia|].
  destruct (read_until delim s) as [token' [rest'|]]; intros [= <- <-].
  specialize (IH _ eq_refl). lia.
Qed.

Lemma getline_left ss str delim :
  failbit (getline ss str delim).1 = false ->
  istream_left (getline ss str delim).1 < istream_left ss.
Proof.
  unfold getline, istream_left.
  destruct (eofbit ss || failbit ss); simpl; [discriminate|].
  destruct (read_until delim (buf ss)) as [token [rest|]] eqn:E; simpl; intros _.
  - apply read_until_length in E. lia.
  - lia.
Qed.

(** The loop [while (getline(tokenStream, token, delimiter))
    tokens.push_back(f(token))], where [f] is what the body does to [token]
    before the [push_back]. *)
Equations? getline_loop (f : text -> text) (delimiter : ascii)
  (tokenStream : istream) (token : text) (tokens : list text) : list text
  by wf (istream_left tokenStream) lt :=
  getline_loop f delimiter tokenStream token tokens :=
    if decide (failbit (getline tokenStream token delimiter).1 = false) then
      let tokenStream' := (getline tokenStream token delimiter).1 in
      let token := f (getline tokenStream token delimiter).2 in
      getline_loop f delimiter tokenStream' token (tokens ++ [token])
    else tokens.
Proof. by apply getline_left. Qed.

(** [split]. *)
Definition split (s : text) (delimiter : ascii) : list text :=
  getline_loop (fun token => token) delimiter (istream_of s) [] [].

(** ** Creating notes *)

(** [addNote], as a function of what it reads from [cin]: the note type, the
    title, the description, the line of tags and (for a protected note) the
    password.  The result is the note pushed on [items], if any. *)
Definition addNote (type : Z) (title description tagsInput password : text)
  : option Note :=
  let tags :=
    getline_loop
      (fun tag => if bool_decide (tag = []) then str "generic" else tag)
      ","%char (istream_of tagsInput) [] [] in
  if bool_decide (type = 2%Z) then
    Some (mkNote (mkItem title description) tags (IsProtectedNote password))
  else if bool_decide (type = 1%Z) then
    Some (mkNote (mkItem title description) tags IsPublicNote)
  else if bool_decide (type = 3%Z) then
    Some (mkNote (mkItem title description) tags IsNote)
  else None.

(** The string locals of [loadDataFromFile] that the note branch reads; they
    are declared outside the loop and keep their value from line to line. *)
Record LoadVars := mkLoadVars {
  lv_type : text;
  lv_title : text;
  lv_description : text;
  lv_tags : text;
  lv_password : text }.

(** What one line of the file pushes on [items]: a note, or a task or goal
    (whose numeric fields are not modelled). *)
Inductive Loaded :=
| LoadedNote (n : Note)
| LoadedTaskOrGoal.

(** One iteration of the loop of [loadDataFromFile], on the line just read. *)
Definition load_line (vars : LoadVars) (line : text) : LoadVars * option Loaded :=
  let ss := istream_of line in
  let '(ss, type) := getline ss (lv_type vars) ","%char in
  if bool_decide (type = str "Task") || bool_decide (type = str "RecurringTask")
     || bool_decide (type = str "OneTimeTask") then
    let '(ss, title) := getline ss (lv_title vars) ","%char in
    let '(ss, description) := getline ss (lv_description vars) ","%char in
    (mkLoadVars type title description (lv_tags vars) (lv_password vars),
     Some LoadedTaskOrGoal)
  else if bool_decide (type = str "Note") || bool_decide (type = str "ProtectedNote")
     || bool_decide (type = str "PublicNote") then
    let '(ss, title) := getline ss (lv_title vars) ","%char in
    let '(ss, description) := getline ss (lv_description vars) ","%char in
    let '(ss, tags) := getline ss (lv_tags vars) ","%char in
    if bool_decide (type = str "ProtectedNote") then
      let '(ss, password) := getline ss (lv_password vars) newline in
      let tagList := split tags ","%char in
      (mkLoadVars type title description tags password,
       Some (LoadedNote (mkNote (mkItem title description) tagList (IsProtectedNote password))))
    else if bool_decide (type = str "PublicNote") then
      let tagList := split tags ","%char in
      (mkLoadVars type title description tags (lv_password vars),
       Some (LoadedNote (mkNote (mkItem title description) tagList IsPublicNote)))
    else
      let tagList := split tags ","%char in
      (mkLoadVars type title description tags (lv_password vars),
       Some (LoadedNote (mkNote (mkItem title description) tagList IsNote)))
  else if bool_decide (type = str "Goal") || bool_decide (type = str "QuantifiableGoal")
     || bool_decide (type = str "NonQuantifiableGoal") then
    let '(ss, title) := getline ss (lv_title vars) ","%char in
    let '(ss, description) := getline ss (lv_description vars) ","%char in
    (mkLoadVars type title description (lv_tags vars) (lv_password vars),
     Some LoadedTaskOrGoal)
  else
    (mkLoadVars type (lv_title vars) (lv_description vars) (lv_tags vars)
       (lv_password vars), None).

(** The loop over the lines, from the state [vars] of the locals. *)
Fixpoint load_lines (vars : LoadVars) (lines : list text) : list Loaded :=
  match lines with
  | [] => []
  | line :: lines =>
      let '(vars, item) := load_line vars line in
      match item with
      | Some item => item :: load_lines vars lines
      | None => load_lines vars lines
      end
  end.

(** [loadDataFromFile] on a file with the given content: the lines are what
    [while (getline(file, line))] reads, which is the loop of [split] with
    the newline as delimiter; all string locals start empty. *)
Definition loadDataFromFile (content : text) : list Loaded :=
  load_lines (mkLoadVars [] [] [] [] []) (split content newline).

(** ** Note search *)

(** [computeKMPTable]; [fuel] bounds the number of loop tests. *)
Definition computeKMPTable (fuel : nat) (pattern : text) : option (list nat) :=
  let m := length pattern in
  let lps := replicate m 0 in
  let len := 0 in
  let i := 1 in
  match
    while fuel
      (fun '(lps, len, i) => bool_decide (i < m))
      (fun '(lps, len, i) =>
         if bool_decide (pattern !!! i = pattern !!! len) then
           (<[i := len + 1]> lps, len + 1, i + 1)
         else if bool_decide (len <> 0) then
           (lps, lps !!! (len - 1), i)
         else
           (<[i := 0]> lps, len, i + 1))
      (lps, len, i)
  with
  | Some (lps, _, _) => Some lps
  | None => None
  end.

(** A [while] loop whose body can [return]: [inl r] is the value returned
    from inside the loop, [inr s] the state at a normal exit. *)
Fixpoint while_return {S R : Type} (fuel : nat) (cond : S -> bool)
  (body : S -> R + S) (s : S) : option (R + S) :=
  match fuel with
  | 0 => None
  | S fuel =>
      if cond s then
        match body s with
        | inl r => Some (inl r)
        | inr s => while_return fuel cond body s
        end
      else Some (inr s)
  end.

(** [KMPSearch]; [fuel] bounds the number of tests of each loop. *)
Definition KMPSearch (fuel : nat) (text_ pattern : text) : option bool :=
  if bool_decide (pattern = []) then Some false
  else
    let n := length text_ in
    let m := length pattern in
    let i := 0 in
    let j := 0 in
    match computeKMPTable fuel pattern with
    | None => None
    | Some lps =>
        match
          while_return fuel
            (fun '(i, j) => bool_decide (i < n))
            (fun '(i, j) =>
               if bool_decide (text_ !!! i = pattern !!! j) then
                 if bool_decide (j + 1 = m) then inl true
                 else inr (i + 1, j + 1)
               else if bool_decide (j <> 0) then inr (i, lps !!! (j - 1))
               else inr (i + 1, j))
            (i, j)
        with
        | None => None
        | Some (inl r) => Some r
        | Some (inr _) => Some false
        end
    end.

(** [tolower] in the "C" locale, which the program never changes. *)
Definition tolower (c : ascii) : ascii :=
  let n := nat_of_ascii c in
  if (65 <=? n) && (n <=? 90) then ascii_of_nat (n + 32) else c.

(** [toLowerCase]. *)
Definition toLowerCase (s : text) : text := map tolower s.

(** The [fullText] that [searchNotesFullText] builds for a note. *)
Definition fullText (n : Note) : text :=
  let fullText := title (note_item n) ++ str " " ++ description (note_item n) ++ str " " in
  fold_left (fun fullText tag => fullText ++ (tag ++ str " ")) (tags n) fullText.

Section NoteSearch.
Variable heap : addr -> Note.

(** [searchNotesFullText]: the text written to [cout]; the loop state is
    that text and [found]. *)
Definition searchNotesFullText (fuel : nat) (notes : list addr) (searchText : text)
  : option text :=
  let found := false in
  let cout :=
    nl "Searching all note fields for: " ++ searchText ++ (newline :: nl " ")
    ++ endl in
  match
    fold_left
      (fun st note =>
         match st with
         | None => None
         | Some (cout, found) =>
             match
               KMPSearch fuel (toLowerCase (fullText (heap note))) (toLowerCase searchText)
             with
             | None => None
             | Some true => Some (cout ++ note_display (heap note) ++ endl, true)
             | Some false => Some (cout, found)
             end
         end)
      notes (Some (cout, found))
  with
  | None => None
  | Some (cout, found) =>
      if negb found then Some (cout ++ str "No matching notes found." ++ endl)
      else Some cout
  end.

(** [searchNotesByTag]: the text written to [cout]. *)
Definition searchNotesByTag (notes : list addr) (tag : text) : text :=
  let found := false in
  let '(cout, found) :=
    fold_left
      (fun '(cout, found) note =>
         if list_find (fun t => t = tag) (tags (heap note)) is Some _ then
           (cout ++ note_display (heap note) ++ endl, true)
         else (cout, found))
      notes ([], found) in
  if negb found then cout ++ str "No notes found with that tag." ++ endl
  else cout.

End NoteSearch.


(** ** Viewing protected notes *)

Definition tab : ascii := "009"%char.

(** [cin.ignore(numeric_limits<streamsize>::max(), '\n')]: on a stream that
    is not [good()] it sets [failbit]; otherwise it discards the characters
    up to and including the next line feed, and sets [eofbit] when the end
    comes first. *)
Definition ignore_line (cin : istream) : istream :=
  if eofbit cin || failbit cin then mkIstream (buf cin) (eofbit cin) true
  else
    match read_until newline (buf cin) with
    | (_, Some rest) => mkIstream rest false false
    | (_, None) => mkIstream [] true false
    end.

Section ProtectedNotes.
Variable heap : addr -> Note.

(** The loop of case 3 of [handleNotes] over the notes: the state is [cin]
    and [cout]; the result also carries [accessGranted].  The [break] ends
    the recursion. *)
Fixpoint handleNotes_protected_loop (notes : list addr) (cin : istream) (cout : text)
  : istream * text * bool :=
  match notes with
  | [] => (cin, cout, false)
  | note :: notes =>
      match note_variant (heap note) with
      | IsProtectedNote password =>
          let cout :=
            cout ++ nl "Enter password to view " ++ title (note_item (heap note))
            ++ str "(HINT: password123 for Personal Diary, if you want to access other protected notes you've created please press ENTER): " in
          let '(cin, passwordInput) := getline cin [] newline in
          if bool_decide (passwordInput = password) then
            (cin,
             cout ++ nl "Access granted to: " ++ title (note_item (heap note))
             ++ [newline] ++ note_getDetails (heap note) ++ endl ++ endl,
             true)
          else
            handleNotes_protected_loop notes cin
              (cout ++ str "Incorrect password. Try again for this note." ++ [newline])
      | _ => handleNotes_protected_loop notes cin cout
      end
  end.

(** Case 3 of [handleNotes]: what it leaves of [cin] and what it writes. *)
Definition handleNotes_protected (notes : list addr) (cin : istream)
  : istream * text :=
  let cout := tab :: str "Protected Notes Details:" ++ [newline; newline] in
  let cin := ignore_line cin in
  let '(cin, cout, accessGranted) := handleNotes_protected_loop notes cin cout in
  if negb accessGranted then
    (cin, cout ++ nl "No access granted to any protected notes with given passwords."
          ++ [newline])
  else (cin, cout).

End ProtectedNotes.
(** * Specification vocabulary *)

(** [l] joined by [sep], with no separator after the last element. *)
Fixpoint join_with (sep : text) (l : list text) : text :=
  match l with
  | [] => []
  | [x] => x
  | x :: l => x ++ sep ++ join_with sep l
  end.

(** The fixed header of [Note::getDetails]. *)
Definition details_header (it : Item) : text :=
  str "Title: " ++ title it ++ nl "Description: " ++ description it
  ++ nl "Tags: ".

(** What a search prints for the notes it selects: each note's [display]
    followed by an empty line. *)
Definition shown (heap : addr -> Note) (selected : list addr) : text :=
  concat (map (fun a => note_display (heap a) ++ endl) selected).

(** The notes that carry exactly the tag [tag]. *)
Definition with_tag (heap : addr -> Note) (tag : text) (notes : list addr) : list addr :=
  filter (fun a => tag ∈ tags (heap a)) notes.

(** Every tag of the note is a non-empty string. *)
Definition no_empty_tag (n : Note) : Prop := Forall (fun t => t <> []) (tags n).

(** The locals of [loadDataFromFile] never hold a comma in [tags]. *)
Definition tags_var_ok (vars : LoadVars) : Prop := ","%char ∉ lv_tags vars.

(** A note that [addNote] can push. *)
Definition created_by_addNote (n : Note) : Prop :=
  exists type title description tagsInput password,
    addNote type title description tagsInput password = Some n.

(** A note that [loadDataFromFile] can push. *)
Definition created_by_load (n : Note) : Prop :=
  exists content, LoadedNote n ∈ loadDataFromFile content.


(** ** Progress ranking *)

(** The goal's [getProgress] is the sentinel. *)
Definition is_sentinel (g : Goal) : Prop := (getProgress g == sentinel)%Q.

(** Order of two goals by [getProgress]. *)
Definition progress_le (heap : addr -> Goal) (a b : addr) : Prop :=
  (getProgress (heap a) <= getProgress (heap b))%Q.

(** The ranking the specification describes: every sentinel goal after
    every other goal, the other goals strictly descending by progress. *)
Definition ranked_descending (heap : addr -> Goal) (l : list addr) : Prop :=
  forall i j a b, l !! i = Some a -> l !! j = Some b ->
    (is_sentinel (heap a) -> ~ is_sentinel (heap b) -> j < i)
    /\ (~ is_sentinel (heap a) -> ~ is_sentinel (heap b) -> i < j ->
        (getProgress (heap b) < getProgress (heap a))%Q).

(** The ranking [heapSort] produces: non-decreasing by [getProgress], hence
    every sentinel goal before every other goal. *)
Definition ranked_ascending (heap : addr -> Goal) (l : list addr) : Prop :=
  StronglySorted (progress_le heap) l
  /\ forall i j a b, l !! i = Some a -> l !! j = Some b ->
       is_sentinel (heap a) -> ~ is_sentinel (heap b) -> i < j.

(** No progress value lies below the sentinel. *)
Definition no_progress_below_sentinel (heap : addr -> Goal) (l : list addr) : Prop :=
  Forall (fun a => (sentinel <= getProgress (heap a))%Q) l.

(** The index [largest] at the last test of [heapify]. *)
Definition heapify_largest (heap : addr -> Goal) (goals : list addr) (n i : nat) : nat :=
  let largest := i in
  let left := 2 * i + 1 in
  let right := 2 * i + 2 in
  let largest :=
    if bool_decide (left < n) && greater_and_quantified heap goals left largest
    then left else largest in
  let largest :=
    if bool_decide (right < n) && greater_and_quantified heap goals right largest
    then right else largest in
  largest.

(** The max-heap condition on node [k] of the heap [goals[0..n)]. *)
Definition heap_at (heap : addr -> Goal) (goals : list addr) (n k : nat) : Prop :=
  forall c, c = 2 * k + 1 \/ c = 2 * k + 2 -> c < n ->
    progress_le heap (goals !!! c) (goals !!! k).

(** The state of [heapSort] before the extraction step at [m - 1]:
    [goals[0..m)] is a heap whose elements are below the sorted rest. *)
Definition extraction_invariant (heap : addr -> Goal) (m : nat) (goals : list addr) : Prop :=
  (forall k, k < m -> heap_at heap goals m k)
  /\ (forall x y, x ∈ take m goals -> y ∈ drop m goals -> progress_le heap x y)
  /\ StronglySorted (progress_le heap) (drop m goals).

(** The exchange of the indices [i] and [j]. *)
Definition transpose (i j k : nat) : nat :=
  if decide (k = i) then j else if decide (k = j) then i else k.

(** The scenario of the specification: progress 0.5, a non-quantifiable
    goal, progress 0.9, a non-quantifiable goal, at addresses 0 to 3. *)
Definition scenario_goals (a : addr) : Goal :=
  match a with
  | 0 => mkGoal (mkItem (str "Read") []) (1 # 2) IsQuantifiableGoal
  | 1 => mkGoal (mkItem (str "Relax") []) 0 IsNonQuantifiableGoal
  | 2 => mkGoal (mkItem (str "Run") []) (9 # 10) IsQuantifiableGoal
  | _ => mkGoal (mkItem (str "Rest") []) 0 IsNonQuantifiableGoal
  end.

(** A generic goal whose stored progress is below the sentinel, at address
    0, and non-quantifiable goals elsewhere. *)
Definition below_sentinel_goals (a : addr) : Goal :=
  match a with
  | 0 => mkGoal (mkItem (str "Debt") []) (-2) IsGoal
  | _ => mkGoal (mkItem (str "Rest") []) 0 IsNonQuantifiableGoal
  end.

(** ** Key ordering *)

(** Lexicographic order of two texts by character code: the empty text is
    first, then the first differing character decides. *)
Inductive lex_le : text -> text -> Prop :=
| lex_le_nil b : lex_le [] b
| lex_le_lt x a y b : (N_of_ascii x < N_of_ascii y)%N -> lex_le (x :: a) (y :: b)
| lex_le_eq x a b : lex_le a b -> lex_le (x :: a) (x :: b).

Section KeyOrderingSpec.
Variable heap : addr -> Task.
Variable key_le : Task -> Task -> bool.

(** [a] is not after [b] in the order of the keys. *)
Definition key_before (a b : addr) : Prop := key_le (heap a) (heap b) = true.

(** The stable merge of two lists: on a tie the element of [l] goes first. *)
Fixpoint lmerge (l r : list addr) : list addr :=
  match l with
  | [] => r
  | a :: l' =>
      (fix lmerge_r (r : list addr) : list addr :=
         match r with
         | [] => a :: l'
         | b :: r' =>
             if key_le (heap a) (heap b) then a :: lmerge l' r
             else b :: lmerge_r r'
         end) r
  end.

(** [out] is [seg] sorted by key, with every group of equal keys in its
    order in [seg]. *)
Definition stably_sorted (out seg : list addr) : Prop :=
  StronglySorted key_before out
  /\ out ≡ₚ seg
  /\ forall (P : addr -> Prop) `(forall a, Decision (P a)),
       (forall a b, P a -> P b -> key_before a b) ->
       filter P out = filter P seg.

End KeyOrderingSpec.

(** ** Substring search *)

(** [pattern] is a contiguous substring of [text_]. *)
Definition occurs (pattern text_ : text) : Prop :=
  exists pre post, text_ = pre ++ pattern ++ post.

(** [pattern] stands in [text_] from index [s] on. *)
Definition occurs_at (text_ pattern : text) (s : nat) : Prop :=
  forall x, x < length pattern -> text_ !! (s + x) = pattern !! x.

(** The first [b] characters of [pattern] are also the last [b] of its
    first [k], and [b < k]: a proper border of the prefix of length [k]. *)
Definition border (pattern : text) (k b : nat) : Prop :=
  b < k /\ forall x, x < b -> pattern !! x = pattern !! (k - b + x).

Definition longest_border (pattern : text) (k b : nat) : Prop :=
  border pattern k b /\ forall c, border pattern k c -> c <= b.

(** The table of [computeKMPTable] is right up to index [i]. *)
Definition table_upto (pattern : text) (lps : list nat) (i : nat) : Prop :=
  length lps = length pattern
  /\ forall k, k < i -> longest_border pattern (S k) (lps !!! k).

(** Invariant and variant of the loop of [computeKMPTable]. *)
Definition table_invariant (pattern : text) (st : list nat * nat * nat) : Prop :=
  let '(lps, len, i) := st in
  1 <= i <= length pattern
  /\ table_upto pattern lps i
  /\ border pattern i len
  /\ (i < length pattern -> forall b, border pattern (S i) (S b) -> b <= len).

Definition table_variant (pattern : text) (st : list nat * nat * nat) : nat :=
  let '(lps, len, i) := st in 2 * (length pattern - i) + len.

(** Invariant and variant of the loop of [KMPSearch]. *)
Definition search_invariant (text_ pattern : text) (st : nat * nat) : Prop :=
  let '(i, j) := st in
  j <= i /\ i <= length text_ /\ j < length pattern
  /\ (forall x, x < j -> text_ !! (i - j + x) = pattern !! x)
  /\ (forall s, s < i - j -> ~ occurs_at text_ pattern s).

Definition search_variant (text_ : text) (st : nat * nat) : nat :=
  let '(i, j) := st in 2 * (length text_ - i) + j.

(** The loop bodies of [computeKMPTable] and [KMPSearch]. *)
Definition table_body (pattern : text) (st : list nat * nat * nat) : list nat * nat * nat :=
  let '(lps, len, i) := st in
  if bool_decide (pattern !!! i = pattern !!! len) then
    (<[i := len + 1]> lps, len + 1, i + 1)
  else if bool_decide (len <> 0) then
    (lps, lps !!! (len - 1), i)
  else
    (<[i := 0]> lps, len, i + 1).

Definition search_body (text_ pattern : text) (lps : list nat) (st : nat * nat)
  : bool + nat * nat :=
  let '(i, j) := st in
  if bool_decide (text_ !!! i = pattern !!! j) then
    if bool_decide (j + 1 = length pattern) then inl true
    else inr (i + 1, j + 1)
  else if bool_decide (j <> 0) then inr (i, lps !!! (j - 1))
  else inr (i + 1, j).

(** A decision procedure for [occurs]: try every suffix of the text. *)
Fixpoint occursb (pattern text_ : text) : bool :=
  bool_decide (pattern `prefix_of` text_)
  || match text_ with
     | [] => false
     | _ :: text_ => occursb pattern text_
     end.

Lemma occursb_spec pattern text_ : occursb pattern text_ = true <-> occurs pattern text_.
Proof.
  induction text_ as [|c text_ IH]; simpl.
  - rewrite orb_false_r, bool_decide_eq_true. split.
    + intros [post ->]. by exists [], post.
    + intros (pre & post & H). symmetry in H.
      apply app_eq_nil in H as [-> H]. apply app_eq_nil in H as [-> _].
      by exists [].
  - rewrite orb_true_iff, bool_decide_eq_true, IH. split.
    + intros [[post ->]|(pre & post & ->)].
      * by exists [], post.
      * by exists (c :: pre), post.
    + intros ([|c' pre] & post & H).
      * left. exists post. by rewrite H.
      * right. injection H as -> ->. by exists pre, post.
Qed.

#[global] Instance occurs_dec pattern text_ : Decision (occurs pattern text_) :=
  match occursb pattern text_ as b return occursb pattern text_ = b -> _ with
  | true => fun H => left (proj1 (occursb_spec pattern text_) H)
  | false => fun H => right (fun Hocc =>
      eq_ind true (fun b => if b then True else False) I false
        (eq_trans (eq_sym (proj2 (occursb_spec pattern text_) Hocc)) H))
  end eq_refl.

(** The note is one that [searchNotesFullText] selects for [searchText]:
    the search text is not empty and, case-folded, occurs in the
    case-folded [fullText] of the note. *)
Definition full_text_match (searchText : text) (n : Note) : Prop :=
  searchText <> []
  /\ occurs (toLowerCase searchText) (toLowerCase (fullText n)).

(** The haystack as the specification words it: title, description and
    tags, separated by spaces. *)
Definition spec_haystack (n : Note) : text :=
  join_with (str " ") (title (note_item n) :: description (note_item n) :: tags n).

(** The haystack that is searched: title, description and tags, each of
    them followed by one space. *)
Definition haystack (n : Note) : text :=
  concat (map (fun field => field ++ str " ")
            (title (note_item n) :: description (note_item n) :: tags n)).

(** Case folding, letter by letter: the 26 capital letters become their
    small letters, every other character stays as it is. *)
Definition lower_case (c : ascii) : ascii :=
  match c with
  | "A" => "a" | "B" => "b" | "C" => "c" | "D" => "d" | "E" => "e"
  | "F" => "f" | "G" => "g" | "H" => "h" | "I" => "i" | "J" => "j"
  | "K" => "k" | "L" => "l" | "M" => "m" | "N" => "n" | "O" => "o"
  | "P" => "p" | "Q" => "q" | "R" => "r" | "S" => "s" | "T" => "t"
  | "U" => "u" | "V" => "v" | "W" => "w" | "X" => "x" | "Y" => "y"
  | "Z" => "z"
  | _ => c
  end%char.

Definition lower_text (s : text) : text := map lower_case s.

(** The selection as the specification words it: the folded search text,
    which is not empty, occurs in the folded haystack of title, description
    and tags separated by spaces. *)
Definition spec_full_text_match (searchText : text) (n : Note) : Prop :=
  searchText <> []
  /\ occurs (lower_text searchText) (lower_text (spec_haystack n)).

(** The selection of the full-text search: the same, over the haystack in
    which a space follows every field. *)
Definition full_text_selects (searchText : text) (n : Note) : Prop :=
  searchText <> []
  /\ occurs (lower_text searchText) (lower_text (haystack n)).

(** What [searchNotesFullText] prints when it selects [selected]. *)
Definition full_text_report (heap : addr -> Note) (searchText : text)
  (selected : list addr) : text :=
  nl "Searching all note fields for: " ++ searchText ++ (newline :: nl " ")
  ++ endl
  ++ (if decide (selected = []) then str "No matching notes found." ++ endl
      else shown heap selected).

(** The note of the specification's scenario, at every address. *)
Definition scenario_notes (a : addr) : Note :=
  mkNote (mkItem (str "Daily Standup") (str "notes about Project"))
    [str "Apollo"] IsNote.

(** The tasks of the specification's scenario: priorities 5, 1, 3 and the
    deadlines given with them, at addresses 0 to 2. *)
Definition scenario_tasks (a : addr) : Task :=
  match a with
  | 0 => mkTask (mkItem (str "Report") []) (str "2024-05-01") 5 IsTask
  | 1 => mkTask (mkItem (str "Backup") []) (str "2024-01-10") 1 IsOneTimeTask
  | _ => mkTask (mkItem (str "Review") []) (str "2024-03-15") 3 IsTask
  end.

(** A note with the tags "work" and "urgent", at every address. *)
Definition scenario_tagged (a : addr) : Note :=
  mkNote (mkItem (str "Plan") (str "week")) [str "work"; str "urgent"] IsNote.

(** ** Tokens and lines *)

(** The tokens that the [getline] loop reads from [s], [cur] being the
    part of the current token already read: a token ends at each delimiter,
    and what follows the last delimiter is a token unless it is empty. *)
Fixpoint tokens (delim : ascii) (cur s : text) : list text :=
  match s with
  | [] => if decide (cur = []) then [] else [cur]
  | c :: s =>
      if bool_decide (c = delim) then cur :: tokens delim [] s
      else tokens delim (cur ++ [c]) s
  end.

(** What [addNote] does to a token. *)
Definition generic_if_empty (tag : text) : text :=
  if bool_decide (tag = []) then str "generic" else tag.

(** The variant tag that starts the line of a note in the data file. *)
Definition note_kind (v : NoteVariant) : text :=
  match v with
  | IsNote => str "Note"
  | IsProtectedNote _ => str "ProtectedNote"
  | IsPublicNote => str "PublicNote"
  end.

(** The line of the data file for a note with at most one tag. *)
Definition note_line (n : Note) : text :=
  note_kind (note_variant n) ++ str "," ++ title (note_item n) ++ str ","
  ++ description (note_item n) ++ str "," ++ concat (tags n)
  ++ match note_variant n with
     | IsProtectedNote password => str "," ++ password
     | _ => []
     end.

(** The data file with one line per note. *)
Definition notes_file (ns : list Note) : text :=
  concat (map (fun n => note_line n ++ [newline]) ns).

(** A note that a line of the data file can hold: no comma or line feed
    in the title, the description and the tag, at most one tag, and it not
    empty; no line feed in the password. *)
Definition storable (n : Note) : Prop :=
  (","%char ∉ title (note_item n)) /\ (newline ∉ title (note_item n))
  /\ (","%char ∉ description (note_item n))
  /\ (newline ∉ description (note_item n))
  /\ length (tags n) <= 1
  /\ Forall (fun t => t <> [] /\ (","%char ∉ t) /\ (newline ∉ t)) (tags n)
  /\ match note_variant n with
     | IsProtectedNote password => newline ∉ password
     | _ => True
     end.

(** The password of a protected note; nothing for the other notes. *)
Definition password_of (n : Note) : option text :=
  match note_variant n with
  | IsProtectedNote password => Some password
  | _ => None
  end.

(** The protected notes among [notes]. *)
Definition protected_of (heap : addr -> Note) (notes : list addr) : list addr :=
  filter (fun a => is_Some (password_of (heap a))) notes.

(** What case 3 of [handleNotes] writes for a protected note whose
    password is not the line entered. *)
Definition refusal (heap : addr -> Note) (a : addr) : text :=
  nl "Enter password to view " ++ title (note_item (heap a))
  ++ str "(HINT: password123 for Personal Diary, if you want to access other protected notes you've created please press ENTER): "
  ++ str "Incorrect password. Try again for this note." ++ [newline].

(** Two notes that a data file can hold. *)
Definition stored_notes : list Note :=
  [mkNote (mkItem (str "Plan") (str "week")) [str "work"] IsNote;
   mkNote (mkItem (str "Diary") (str "private")) [] (IsProtectedNote (str "a,b"))].

(** A protected note with the password "secret" at address 0, a generic
    note elsewhere. *)
Definition scenario_protected (a : addr) : Note :=
  match a with
  | 0 => mkNote (mkItem (str "Diary") (str "private")) [str "home"]
           (IsProtectedNote (str "secret"))
  | _ => mkNote (mkItem (str "Plan") (str "week")) [str "work"] IsNote
  end.
(** * Item model *)

(** C7: [getProgress] of a [NonQuantifiableGoal] is the number -1 whatever
    progress is stored; of a [Goal] and a [QuantifiableGoal] it is the
    stored progress. *)
Theorem getProgress_by_variant (it : Item) (p : Q) :
  getProgress (mkGoal it p IsNonQuantifiableGoal) = (-1)%Q
  /\ getProgress (mkGoal it p IsGoal) = p
  /\ getProgress (mkGoal it p IsQuantifiableGoal) = p.
Proof. split; [reflexivity|split; reflexivity]. Qed.

Lemma fold_left_append {A} (g : A -> text) (l : list A) (acc : text) :
  fold_left (fun acc x => acc ++ g x) l acc = acc ++ concat (map g l).
Proof.
  revert acc; induction l as [|x l IH]; intros acc; simpl.
  - by rewrite app_nil_r.
  - by rewrite IH, app_assoc.
Qed.

Lemma pop_back_snoc (s : text) (c : ascii) : pop_back (s ++ [c]) = s.
Proof. apply removelast_last. Qed.

Lemma pop_back_twice (s : text) (c d : ascii) : pop_back (pop_back (s ++ [c; d])) = s.
Proof.
  replace (s ++ [c; d]) with ((s ++ [c]) ++ [d]) by (by rewrite <- app_assoc).
  by rewrite !pop_back_snoc.
Qed.

Lemma concat_sep_join (sep : text) (t : text) (ts : list text) :
  concat (map (fun field => field ++ sep) (t :: ts))
  = join_with sep (t :: ts) ++ sep.
Proof.
  revert t; induction ts as [|u ts IH]; intros t.
  - simpl. by rewrite app_nil_r.
  - change (concat (map _ (t :: u :: ts)))
      with ((t ++ sep) ++ concat (map (fun field => field ++ sep) (u :: ts))).
    rewrite IH. change (join_with sep (t :: u :: ts))
      with (t ++ sep ++ join_with sep (u :: ts)).
    by rewrite <- !app_assoc.
Qed.

Lemma concat_tags_join (t : text) (ts : list text) :
  concat (map (fun tag => tag ++ str ", ") (t :: ts))
  = join_with (str ", ") (t :: ts) ++ str ", ".
Proof.
  revert t; induction ts as [|u ts IH]; intros t.
  - simpl. by rewrite app_nil_r.
  - change (concat (map _ (t :: u :: ts)))
      with ((t ++ str ", ") ++ concat (map (fun tag => tag ++ str ", ") (u :: ts))).
    rewrite IH. change (join_with (str ", ") (t :: u :: ts))
      with (t ++ str ", " ++ join_with (str ", ") (u :: ts)).
    by rewrite <- !app_assoc.
Qed.

(** C10: with a non-empty tag list [Note::getDetails] is the header followed
    by the tags joined by ", "; with an empty tag list the two [pop_back]s
    eat the end of the header, which then stops at "Tags". *)
Theorem Note_getDetails_spec (it : Item) (t : text) (ts : list text) (v : NoteVariant) :
  Note_getDetails (mkNote it (t :: ts) v)
    = str "Title: " ++ title it ++ nl "Description: " ++ description it
      ++ nl "Tags: " ++ join_with (str ", ") (t :: ts)
  /\ Note_getDetails (mkNote it [] v)
    = str "Title: " ++ title it ++ nl "Description: " ++ description it
      ++ nl "Tags".
Proof.
  split.
  - unfold Note_getDetails. cbn [tags note_item].
    rewrite (fold_left_append (fun tag => tag ++ str ", ")), concat_tags_join.
    fold (details_header it).
    rewrite app_assoc. change (str ", ") with [","%char; " "%char].
    rewrite pop_back_twice. unfold details_header. by rewrite <- !app_assoc.
  - unfold Note_getDetails. cbn [tags note_item fold_left].
    change (nl "Tags: ") with (nl "Tags" ++ [":"%char; " "%char]).
    rewrite !app_assoc. by rewrite pop_back_twice.
Qed.

(** * Tag search *)

Lemma list_find_tag (tag : text) (l : list text) :
  (if list_find (fun t => t = tag) l is Some _ then true else false)
  = bool_decide (tag ∈ l).
Proof.
  destruct (list_find _ l) as [[i t]|] eqn:E.
  - apply list_find_Some in E as (Hi & -> & _).
    symmetry; apply bool_decide_eq_true. eapply list_elem_of_lookup_2; eauto.
  - symmetry; apply bool_decide_eq_false. intros Hin.
    eapply list_find_None, Forall_forall in E; eauto.
Qed.

Lemma searchNotesByTag_loop heap tag notes cout found :
  fold_left
    (fun '(cout, found) note =>
       if list_find (fun t => t = tag) (tags (heap note)) is Some _ then
         (cout ++ note_display (heap note) ++ endl, true)
       else (cout, found))
    notes (cout, found)
  = (cout ++ shown heap (with_tag heap tag notes),
     found || negb (bool_decide (with_tag heap tag notes = []))).
Proof.
  revert cout found; induction notes as [|a notes IH]; intros cout found.
  - simpl. by rewrite app_nil_r, orb_false_r.
  - cbn [fold_left]. unfold with_tag in *. rewrite filter_cons.
    pose proof (list_find_tag tag (tags (heap a))) as Hf.
    destruct (list_find _ (tags (heap a))); rewrite IH.
    + symmetry in Hf; apply bool_decide_eq_true in Hf.
      rewrite decide_True by done. unfold shown; simpl.
      rewrite orb_true_r. by rewrite <- !app_assoc.
    + symmetry in Hf; apply bool_decide_eq_false in Hf.
      by rewrite decide_False by done.
Qed.

(** C6: [searchNotesByTag] displays exactly the notes one of whose tags
    equals the query, in their order; when there is none it prints the
    message "No notes found with that tag." and returns normally. *)
Theorem searchNotesByTag_spec (heap : addr -> Note) (notes : list addr) (tag : text) :
  searchNotesByTag heap notes tag
  = if decide (with_tag heap tag notes = [])
    then str "No notes found with that tag." ++ endl
    else shown heap (with_tag heap tag notes).
Proof.
  unfold searchNotesByTag. rewrite searchNotesByTag_loop.
  destruct (decide (with_tag heap tag notes = [])) as [->|Hne].
  - done.
  - by rewrite bool_decide_eq_false_2.
Qed.

(** The scenario of the specification, run: the tag "urgent" finds the
    note, the tag "home" does not. *)
Example searchNotesByTag_scenario :
  searchNotesByTag scenario_tagged [0] (str "urgent")
    = note_display (scenario_tagged 0) ++ endl
  /\ searchNotesByTag scenario_tagged [0] (str "home")
    = str "No notes found with that tag." ++ endl.
Proof. split; vm_compute; reflexivity. Qed.

(** * Tags of created notes *)

Lemma getline_loop_Forall (P : text -> Prop) f delimiter ss token tokens :
  (forall t, P (f t)) -> Forall P tokens ->
  Forall P (getline_loop f delimiter ss token tokens).
Proof.
  intros Hf. funelim (getline_loop f delimiter ss token tokens).
  intros Htokens. clear Heqcall.
  destruct (decide _) as [Hok|]; [|done].
  apply H; [done..|]. apply Forall_app; split; [done|]. by constructor.
Qed.

Lemma read_until_no_delim delim s :
  delim ∉ s -> read_until delim s = (s, None).
Proof.
  induction s as [|c s IH]; intros Hs; [done|]. simpl.
  apply not_elem_of_cons in Hs as [Hc Hs].
  rewrite bool_decide_eq_false_2 by congruence. by rewrite IH.
Qed.

Lemma read_until_token delim s :
  delim ∉ (read_until delim s).1.
Proof.
  induction s as [|c s IH]; simpl; [apply not_elem_of_nil|].
  case_bool_decide as Hc; [apply not_elem_of_nil|].
  destruct (read_until delim s) as [token rest]; simpl in *.
  apply not_elem_of_cons; split; [congruence|done].
Qed.

Lemma getline_token delim ss str_ :
  delim ∉ str_ -> delim ∉ (getline ss str_ delim).2.
Proof.
  intros Hstr. unfold getline. destruct (eofbit ss || failbit ss); [done|].
  pose proof (read_until_token delim (buf ss)) as Ht.
  by destruct (read_until delim (buf ss)) as [token [rest|]].
Qed.

Lemma split_no_delim delim s :
  delim ∉ s -> split s delim = if decide (s = []) then [] else [s].
Proof.
  intros Hs. unfold split. rewrite getline_loop_equation_1.
  assert (getline (istream_of s) [] delim
          = (mkIstream [] true (bool_decide (s = [])), s)) as ->.
  { unfold getline. simpl. by rewrite (read_until_no_delim _ _ Hs). }
  cbn [fst snd failbit].
  destruct (decide (s = [])) as [->|Hne].
  - by rewrite decide_False by (by rewrite bool_decide_eq_true_2).
  - rewrite decide_True by (by rewrite bool_decide_eq_false_2).
    cbv zeta. rewrite getline_loop_equation_1. unfold getline. by simpl.
Qed.

Lemma split_no_delim_tags delim s :
  delim ∉ s -> Forall (fun t => t <> []) (split s delim).
Proof.
  intros Hs. rewrite (split_no_delim _ _ Hs).
  destruct (decide (s = [])); by repeat constructor.
Qed.

Lemma load_line_tags vars line :
  tags_var_ok vars ->
  tags_var_ok (load_line vars line).1
  /\ forall n, (load_line vars line).2 = Some (LoadedNote n) -> no_empty_tag n.
Proof.
  unfold tags_var_ok, load_line, no_empty_tag. intros Hv.
  destruct (getline (istream_of line) (lv_type vars) ","%char) as [ss0 type].
  repeat (first
    [ match goal with
      | |- context [getline ?s ?v ?d] =>
          let H := fresh "Hg" in
          pose proof (getline_token d s v) as H;
          destruct (getline s v d) as [? ?]; simpl in H
      end
    | match goal with |- context [if ?b then _ else _] => destruct b end ]);
    simpl; (split; [by auto|]); intros n [= <-]; simpl;
    apply split_no_delim_tags; auto.
Qed.

Lemma load_lines_tags vars lines n :
  tags_var_ok vars -> LoadedNote n ∈ load_lines vars lines -> no_empty_tag n.
Proof.
  revert vars; induction lines as [|line lines IH]; intros vars Hv; simpl.
  - by intros ?%elem_of_nil.
  - destruct (load_line_tags vars line Hv) as [Hv' Hn].
    destruct (load_line vars line) as [vars' [item|]]; simpl in *.
    + intros [Heq|Hin]%elem_of_cons; [apply Hn; by rewrite Heq|]. by eapply IH.
    + by apply IH.
Qed.

(** X15: no tag of a created note is the empty string.  [addNote] replaces
    every empty token of the tags line by "generic", and the tags field that
    [loadDataFromFile] splits holds no comma, so the split gives at most one
    tag, which is not empty. *)
Theorem created_note_no_empty_tag (n : Note) :
  created_by_addNote n \/ created_by_load n -> no_empty_tag n.
Proof.
  intros [(type & title & description & tagsInput & password & Hadd)
         |(content & Hin)].
  - assert (Forall (fun t => t <> [])
      (getline_loop (fun tag => if bool_decide (tag = []) then str "generic" else tag)
         ","%char (istream_of tagsInput) [] [])) as Htags.
    { apply getline_loop_Forall; [|constructor].
      intros t. case_bool_decide; [by cbv|done]. }
    unfold addNote in Hadd. unfold no_empty_tag.
    repeat case_bool_decide; try discriminate; injection Hadd as <-; exact Htags.
  - eapply load_lines_tags; [|exact Hin]. apply not_elem_of_nil.
Qed.

Lemma created_note_no_empty_tag_witness :
  (created_by_addNote (mkNote (mkItem (str "Idea") (str "later"))
                              [str "generic"; str "home"] IsNote)
   \/ created_by_load (mkNote (mkItem (str "Idea") (str "later"))
                              [str "generic"; str "home"] IsNote))
  /\ no_empty_tag (mkNote (mkItem (str "Idea") (str "later"))
                          [str "generic"; str "home"] IsNote).
Proof.
  assert (created_by_addNote (mkNote (mkItem (str "Idea") (str "later"))
                                     [str "generic"; str "home"] IsNote)) as H.
  { exists 3%Z, (str "Idea"), (str "later"), (str ",home"), []. vm_compute. reflexivity. }
  split; [by left|]. apply created_note_no_empty_tag. by left.
Defined.

(** C8, which the code breaks: on an empty line of tags [addNote] reads no
    token, so nothing is replaced by "generic" and the note is created with
    an empty tag list; [Note::getDetails] of that note stops at "Tags".
    [loadDataFromFile] creates the same note from a line whose tags field is
    empty. *)
Theorem addNote_empty_tags_line :
  addNote 3 (str "Idea") (str "later") [] []
    = Some (mkNote (mkItem (str "Idea") (str "later")) [] IsNote)
  /\ loadDataFromFile (str "Note,Idea,later,")
    = [LoadedNote (mkNote (mkItem (str "Idea") (str "later")) [] IsNote)]
  /\ Note_getDetails (mkNote (mkItem (str "Idea") (str "later")) [] IsNote)
    = str "Title: Idea" ++ nl "Description: later" ++ nl "Tags".
Proof. split; [|split]; vm_compute; reflexivity. Qed.

(** * Progress ranking *)

Lemma for_down_ind {S : Type} (P : nat -> S -> Prop) (body : nat -> S -> S) k s :
  P k s -> (forall i s, i < k -> P (Datatypes.S i) s -> P i (body i s)) ->
  P 0 (for_down k body s).
Proof.
  revert s; induction k as [|k IH]; intros s Hs Hstep; [done|].
  simpl. apply IH; [apply Hstep; [lia|done]|]. intros i s' Hi. apply Hstep; lia.
Qed.

Lemma swap_length goals i j : length (swap goals i j) = length goals.
Proof. unfold swap. by rewrite !length_insert. Qed.

Lemma swap_lookup_total goals i j k :
  i < length goals -> j < length goals ->
  swap goals i j !!! k = goals !!! transpose i j k.
Proof.
  intros Hi Hj. unfold swap, transpose.
  destruct (decide (k = j)) as [->|Hkj].
  - rewrite list_lookup_total_insert_eq by (by rewrite length_insert).
    destruct (decide (j = i)) as [->|]; done.
  - rewrite list_lookup_total_insert_ne by done.
    destruct (decide (k = i)) as [->|Hki].
    + by rewrite list_lookup_total_insert_eq.
    + by rewrite list_lookup_total_insert_ne.
Qed.

Lemma swap_lookup goals i j k :
  i < length goals -> j < length goals ->
  swap goals i j !! k = goals !! transpose i j k.
Proof.
  intros Hi Hj.
  destruct (decide (k < length goals)) as [Hk|Hk].
  - rewrite !list_lookup_lookup_total_lt.
    + by rewrite swap_lookup_total.
    + unfold transpose; repeat case_decide; lia.
    + by rewrite swap_length.
  - rewrite !lookup_ge_None_2; [done| |rewrite swap_length; lia].
    unfold transpose; repeat case_decide; lia.
Qed.

Lemma transpose_involutive i j k : transpose i j (transpose i j k) = k.
Proof. unfold transpose; repeat case_decide; congruence. Qed.

Lemma swap_Permutation goals i j :
  i < length goals -> j < length goals -> swap goals i j ≡ₚ goals.
Proof.
  intros Hi Hj. apply Permutation_inj. split; [apply swap_length|].
  exists (transpose i j). split; [|intros k; by apply swap_lookup].
  intros a b Hab. by rewrite <- (transpose_involutive i j a), Hab, transpose_involutive.
Qed.

Lemma heapify_step heap goals n i :
  heapify heap goals n i
  = if decide (heapify_largest heap goals n i <> i)
    then heapify heap (swap goals i (heapify_largest heap goals n i)) n
           (heapify_largest heap goals n i)
    else goals.
Proof. rewrite heapify_equation_1. reflexivity. Qed.

Lemma heapify_largest_range heap goals n i :
  heapify_largest heap goals n i = i
  \/ ((heapify_largest heap goals n i = 2 * i + 1
       \/ heapify_largest heap goals n i = 2 * i + 2)
      /\ heapify_largest heap goals n i < n).
Proof.
  unfold heapify_largest.
  destruct (bool_decide (2 * i + 1 < n)) eqn:Hl, (bool_decide (2 * i + 2 < n)) eqn:Hr;
    try apply bool_decide_eq_true in Hl; try apply bool_decide_eq_true in Hr;
    cbn [andb]; repeat case_match; lia.
Qed.

(** [heapify] by induction on the distance of [i] to [n]. *)
Lemma heapify_ind heap n (P : list addr -> nat -> Prop) :
  (forall goals i,
     (heapify_largest heap goals n i <> i ->
      P (swap goals i (heapify_largest heap goals n i)) (heapify_largest heap goals n i)) ->
     P goals i) ->
  forall goals i, P goals i.
Proof.
  intros Hstep goals i.
  remember (n - i) as d eqn:Hd. revert goals i Hd.
  induction d as [d IH] using lt_wf_ind. intros goals i ->.
  apply Hstep. intros Hne.
  destruct (heapify_largest_range heap goals n i) as [?|[_ Hlt]]; [done|].
  eapply IH; [|reflexivity].
  destruct (heapify_largest_range heap goals n i) as [?|[[?|?] _]]; [done|lia..].
Qed.

Lemma heapify_Permutation heap goals n i :
  n <= length goals -> heapify heap goals n i ≡ₚ goals.
Proof.
  revert goals i. apply (heapify_ind heap n (fun goals i =>
    n <= length goals -> heapify heap goals n i ≡ₚ goals)).
  intros goals i IH Hn. rewrite heapify_step.
  destruct (decide _) as [Hne|]; [|done].
  destruct (heapify_largest_range heap goals n i) as [?|[Hc Hlt]]; [done|].
  rewrite IH by (by rewrite ?swap_length). apply swap_Permutation; lia.
Qed.

(** C9: [heapSort] returns a permutation of the goal pointers it is given,
    whatever their progress values. *)
Theorem heapSort_Permutation (heap : addr -> Goal) (goals : list addr) :
  heapSort heap goals ≡ₚ goals.
Proof.
  unfold heapSort.
  apply (for_down_ind (fun _ g => g ≡ₚ goals)).
  - apply (for_down_ind (fun _ g => g ≡ₚ goals)); [done|].
    intros i g Hi Hg. rewrite heapify_Permutation; [done|].
    by rewrite (Permutation_length Hg).
  - intros i g Hi Hg. pose proof (Permutation_length Hg) as Hlen.
    rewrite heapify_Permutation by (rewrite swap_length; lia).
    rewrite swap_Permutation by lia. done.
Qed.

Lemma progress_le_refl heap a : progress_le heap a a.
Proof. apply Qle_refl. Qed.

Lemma progress_le_trans heap a b c :
  progress_le heap a b -> progress_le heap b c -> progress_le heap a c.
Proof. apply Qle_trans. Qed.

Lemma no_progress_below_sentinel_lookup heap goals k :
  no_progress_below_sentinel heap goals -> k < length goals ->
  (sentinel <= getProgress (heap (goals !!! k)))%Q.
Proof.
  intros Hall Hk. unfold no_progress_below_sentinel in Hall.
  rewrite Forall_lookup in Hall. apply (Hall k).
  by apply list_lookup_lookup_total_lt.
Qed.

(** Above the sentinel the test of [heapify] is a plain comparison. *)
Lemma greater_and_quantified_true heap goals a b :
  greater_and_quantified heap goals a b = true ->
  progress_le heap (goals !!! b) (goals !!! a).
Proof.
  unfold greater_and_quantified, progress_le.
  intros [Hgt _]%andb_true_iff. apply negb_true_iff in Hgt.
  apply Qlt_le_weak, Qnot_le_lt. intros Hle.
  apply Qle_bool_iff in Hle. congruence.
Qed.

Lemma greater_and_quantified_false heap goals a b :
  (sentinel <= getProgress (heap (goals !!! b)))%Q ->
  greater_and_quantified heap goals a b = false ->
  progress_le heap (goals !!! a) (goals !!! b).
Proof.
  unfold greater_and_quantified, progress_le. intros Hb H.
  apply andb_false_iff in H as [H|H]; apply negb_false_iff in H.
  - by apply Qle_bool_iff.
  - apply Qeq_bool_iff in H. by rewrite H.
Qed.

Lemma heapify_largest_max heap goals n i :
  n <= length goals -> no_progress_below_sentinel heap goals -> i < n ->
  progress_le heap (goals !!! i) (goals !!! heapify_largest heap goals n i)
  /\ forall c, c = 2 * i + 1 \/ c = 2 * i + 2 -> c < n ->
       progress_le heap (goals !!! c) (goals !!! heapify_largest heap goals n i).
Proof.
  intros Hn Hall Hi. unfold heapify_largest.
  assert (forall k, k < n -> (sentinel <= getProgress (heap (goals !!! k)))%Q) as Hlow.
  { intros k Hk. apply no_progress_below_sentinel_lookup; [done|lia]. }
  destruct (bool_decide (2 * i + 1 < n)) eqn:Hl;
    [apply bool_decide_eq_true in Hl|apply bool_decide_eq_false in Hl]; cbn [andb].
  - destruct (greater_and_quantified heap goals (2 * i + 1) i) eqn:H1;
      [apply greater_and_quantified_true in H1
      |apply greater_and_quantified_false in H1; [|by apply Hlow]].
    + destruct (bool_decide (2 * i + 2 < n)) eqn:Hr;
        [apply bool_decide_eq_true in Hr|apply bool_decide_eq_false in Hr]; cbn [andb].
      * destruct (greater_and_quantified heap goals (2 * i + 2) (2 * i + 1)) eqn:H2;
          [apply greater_and_quantified_true in H2
          |apply greater_and_quantified_false in H2; [|by apply Hlow]].
        -- split; [by eapply progress_le_trans|].
           intros c [->| ->] _; [done|apply progress_le_refl].
        -- split; [done|]. intros c [->| ->] _; [apply progress_le_refl|done].
      * split; [done|]. intros c [->| ->] Hc; [apply progress_le_refl|lia].
    + destruct (bool_decide (2 * i + 2 < n)) eqn:Hr;
        [apply bool_decide_eq_true in Hr|apply bool_decide_eq_false in Hr]; cbn [andb].
      * destruct (greater_and_quantified heap goals (2 * i + 2) i) eqn:H2;
          [apply greater_and_quantified_true in H2
          |apply greater_and_quantified_false in H2; [|by apply Hlow]].
        -- split; [done|]. intros c [->| ->] _;
             [by eapply progress_le_trans|apply progress_le_refl].
        -- split; [apply progress_le_refl|]. by intros c [->| ->] _.
      * split; [apply progress_le_refl|]. intros c [->| ->] Hc; [done|lia].
  - destruct (bool_decide (2 * i + 2 < n)) eqn:Hr;
      [apply bool_decide_eq_true in Hr; lia|]; cbn [andb].
    split; [apply progress_le_refl|]. intros c [->| ->] Hc; lia.
Qed.

Lemma swap_no_progress_below_sentinel heap goals i j :
  i < length goals -> j < length goals ->
  no_progress_below_sentinel heap goals ->
  no_progress_below_sentinel heap (swap goals i j).
Proof.
  intros Hi Hj Hall. unfold no_progress_below_sentinel.
  by rewrite swap_Permutation.
Qed.

(** Sifting down: a heap on [lo..n) that is broken at node [i] only, and
    whose node above [i] dominates the nodes below [i], is a heap after
    [heapify] at [i]. *)
Lemma heapify_heap heap n lo goals i :
  n <= length goals -> no_progress_below_sentinel heap goals ->
  lo <= i -> i < n ->
  (forall k, lo <= k -> k < n -> k <> i -> heap_at heap goals n k) ->
  (forall p c, lo <= p -> i = 2 * p + 1 \/ i = 2 * p + 2 ->
     c = 2 * i + 1 \/ c = 2 * i + 2 -> c < n ->
     progress_le heap (goals !!! c) (goals !!! p)) ->
  forall k, lo <= k -> k < n -> heap_at heap (heapify heap goals n i) n k.
Proof.
  revert goals i. apply (heapify_ind heap n (fun goals i =>
    n <= length goals -> no_progress_below_sentinel heap goals ->
    lo <= i -> i < n ->
    (forall k, lo <= k -> k < n -> k <> i -> heap_at heap goals n k) ->
    (forall p c, lo <= p -> i = 2 * p + 1 \/ i = 2 * p + 2 ->
       c = 2 * i + 1 \/ c = 2 * i + 2 -> c < n ->
       progress_le heap (goals !!! c) (goals !!! p)) ->
    forall k, lo <= k -> k < n -> heap_at heap (heapify heap goals n i) n k)).
  intros goals i IH Hn Hall Hlo Hi Hothers Habove k Hk1 Hk2.
  destruct (heapify_largest_max heap goals n i Hn Hall Hi) as [Hmax_i Hmax_c].
  rewrite heapify_step. destruct (decide _) as [Hne|Heq].
  - destruct (heapify_largest_range heap goals n i) as [?|[Hc Hlt]]; [done|].
    set (L := heapify_largest heap goals n i) in *.
    assert (i < L) as HiL by lia.
    assert (forall x, swap goals i L !!! x = goals !!! transpose i L x) as Hsw.
    { intros x. apply swap_lookup_total; lia. }
    apply IH; try done.
    + by rewrite swap_length.
    + apply swap_no_progress_below_sentinel; [lia..|done].
    + lia.
    + intros k' Hk'1 Hk'2 Hk'L c Hc' Hcn. rewrite !Hsw.
      destruct (decide (k' = i)) as [->|Hk'i].
      * (* the node [i] itself, which now holds the largest of the three *)
        replace (transpose i L i) with L by (unfold transpose; by rewrite decide_True).
        destruct (decide (c = L)) as [->|HcL].
        -- replace (transpose i L L) with i
             by (unfold transpose; rewrite decide_False by lia; by rewrite decide_True).
           done.
        -- replace (transpose i L c) with c
             by (unfold transpose; by rewrite !decide_False by lia).
           by apply Hmax_c.
      * replace (transpose i L k') with k'
          by (unfold transpose; by rewrite !decide_False by lia).
        destruct (decide (c = i)) as [->|Hci].
        -- (* [k'] is the node above [i] *)
           replace (transpose i L i) with L by (unfold transpose; by rewrite decide_True).
           eapply (Habove k' L); [done|lia|lia|done].
        -- replace (transpose i L c) with c
             by (unfold transpose; by rewrite !decide_False by lia).
           by apply (Hothers k').
    + intros p c Hp HLp Hc' Hcn. assert (p = i) as -> by lia. rewrite !Hsw.
      replace (transpose i L i) with L by (unfold transpose; by rewrite decide_True).
      replace (transpose i L c) with c
        by (unfold transpose; by rewrite !decide_False by lia).
      apply (Hothers L); [lia|lia|lia|done|done].
  - apply dec_stable in Heq. destruct (decide (k = i)) as [->|Hki]; [|by apply Hothers].
    intros c Hc Hcn. rewrite Heq in Hmax_c. by apply Hmax_c.
Qed.

Lemma heapify_outside heap goals n i k :
  n <= length goals -> n <= k -> heapify heap goals n i !! k = goals !! k.
Proof.
  revert goals i. apply (heapify_ind heap n (fun goals i =>
    n <= length goals -> n <= k -> heapify heap goals n i !! k = goals !! k)).
  intros goals i IH Hn Hk. rewrite heapify_step.
  destruct (decide _) as [Hne|]; [|done].
  destruct (heapify_largest_range heap goals n i) as [?|[Hc Hlt]]; [done|].
  rewrite IH by (by rewrite ?swap_length).
  rewrite swap_lookup by lia. unfold transpose. by rewrite !decide_False by lia.
Qed.

Lemma heapify_drop heap goals n i :
  n <= length goals -> drop n (heapify heap goals n i) = drop n goals.
Proof.
  intros Hn. apply list_eq; intros k. rewrite !lookup_drop.
  apply heapify_outside; lia.
Qed.

Lemma heapify_take heap goals n i :
  n <= length goals -> take n (heapify heap goals n i) ≡ₚ take n goals.
Proof.
  intros Hn. apply (Permutation_app_inv_r (drop n goals)).
  rewrite <- (heapify_drop heap goals n i) at 1 by done.
  rewrite !take_drop. by apply heapify_Permutation.
Qed.

(** The root of a heap dominates every node. *)
Lemma heap_root_max heap goals n :
  (forall k, k < n -> heap_at heap goals n k) ->
  forall k, k < n -> progress_le heap (goals !!! k) (goals !!! 0).
Proof.
  intros Hheap k. induction k as [k IH] using lt_wf_ind. intros Hk.
  destruct k as [|k]; [apply progress_le_refl|].
  assert (exists p, p < S k /\ (S k = 2 * p + 1 \/ S k = 2 * p + 2)) as (p & Hp & Hc).
  { exists (k / 2). pose proof (Nat.div_mod_eq k 2).
    pose proof (Nat.mod_upper_bound k 2). lia. }
  eapply progress_le_trans; [|apply (IH p); lia].
  apply (Hheap p); [lia|done|done].
Qed.

Lemma swap_root_drop goals i :
  i < length goals ->
  drop i (swap goals 0 i) = goals !!! 0 :: drop (S i) goals.
Proof.
  intros Hi. erewrite drop_S.
  - f_equal. apply list_eq; intros k. rewrite !lookup_drop, swap_lookup by lia.
    unfold transpose. by rewrite !decide_False by lia.
  - rewrite swap_lookup by lia.
    replace (transpose 0 i i) with 0 by (unfold transpose; repeat case_decide; lia).
    apply list_lookup_lookup_total_lt; lia.
Qed.

Lemma swap_root_take goals i x :
  i < length goals -> x ∈ take i (swap goals 0 i) -> x ∈ take (S i) goals.
Proof.
  intros Hi (k & Hk & Hki)%elem_of_take. apply elem_of_take.
  rewrite swap_lookup in Hk by lia. exists (transpose 0 i k). split; [done|].
  unfold transpose; repeat case_decide; lia.
Qed.

Lemma extraction_step heap goals i :
  i < length goals -> no_progress_below_sentinel heap goals ->
  extraction_invariant heap (S i) goals ->
  extraction_invariant heap i (heapify heap (swap goals 0 i) i 0).
Proof.
  intros Hi Hall (Hheap & Hcross & Hsorted).
  assert (i <= length (swap goals 0 i)) as Hlen by (rewrite swap_length; lia).
  assert (forall x, x ∈ take (S i) goals ->
    progress_le heap x (goals !!! 0)) as Hroot.
  { intros x (k & Hk & Hki)%elem_of_take.
    rewrite <- (list_lookup_total_correct _ _ _ Hk).
    by apply (heap_root_max heap goals (S i)). }
  repeat split.
  - intros k Hk. apply (heapify_heap heap i 0); [done| |lia|lia| | |lia|done].
    + apply swap_no_progress_below_sentinel; [lia..|done].
    + intros k' _ Hk' Hk'0 c Hc Hci. rewrite !swap_lookup_total by lia.
      unfold transpose. rewrite !decide_False by lia.
      apply (Hheap k'); [lia|done|lia].
    + intros p c _ Hp. lia.
  - intros x y Hx Hy. rewrite heapify_take in Hx by done.
    rewrite heapify_drop, swap_root_drop in Hy by done.
    apply swap_root_take in Hx; [|done].
    apply elem_of_cons in Hy as [->|Hy]; [by apply Hroot|by apply Hcross].
  - rewrite heapify_drop, swap_root_drop by done.
    apply StronglySorted_cons. split; [|done].
    apply Forall_forall. intros y Hy. apply Hcross; [|done].
    apply elem_of_take. exists 0. split; [|lia].
    apply list_lookup_lookup_total_lt; lia.
Qed.

Lemma heapSort_sorted heap goals :
  no_progress_below_sentinel heap goals ->
  heapSort heap goals ≡ₚ goals
  /\ StronglySorted (progress_le heap) (heapSort heap goals).
Proof.
  intros Hall. unfold heapSort. set (n := length goals).
  set (built := for_down (n / 2) (fun i g => heapify heap g n i) goals).
  assert (built ≡ₚ goals /\ forall k, 0 <= k -> k < n -> heap_at heap built n k)
    as [Hperm Hbuilt].
  { apply (for_down_ind (fun m g =>
      g ≡ₚ goals /\ forall k, m <= k -> k < n -> heap_at heap g n k)).
    - split; [done|]. intros k Hk Hkn c Hc Hcn.
      pose proof (Nat.div_mod_eq n 2). pose proof (Nat.mod_upper_bound n 2). lia.
    - intros i g Hi [Hg Hheap]. pose proof (Permutation_length Hg) as Hlen.
      pose proof (Nat.div_mod_eq n 2). pose proof (Nat.mod_upper_bound n 2).
      split; [rewrite heapify_Permutation; [done|by rewrite Hlen]|].
      intros k Hk Hkn. apply (heapify_heap heap n i); [lia| |lia|lia| | |done|done].
      + unfold no_progress_below_sentinel. by rewrite Hg.
      + intros k' Hk'1 Hk'2 Hk'3. apply Hheap; lia.
      + intros p c Hp Hip. lia. }
  cut (for_down n (fun i g => heapify heap (swap g 0 i) i 0) built ≡ₚ goals
       /\ extraction_invariant heap 0
            (for_down n (fun i g => heapify heap (swap g 0 i) i 0) built)).
  { intros [Hp (_ & _ & Hsorted)]. by rewrite drop_0 in Hsorted. }
  apply (for_down_ind (fun m g => g ≡ₚ goals /\ extraction_invariant heap m g)).
  - split; [done|]. repeat split.
    + intros k Hk. apply Hbuilt; lia.
    + intros x y _ Hy. rewrite drop_ge in Hy by (rewrite (Permutation_length Hperm); lia).
      by apply elem_of_nil in Hy.
    + rewrite drop_ge by (rewrite (Permutation_length Hperm); lia). constructor.
  - intros i g Hi [Hg Hinv]. pose proof (Permutation_length Hg) as Hlen.
    split.
    + rewrite heapify_Permutation by (rewrite swap_length; lia).
      rewrite swap_Permutation by lia. done.
    + apply extraction_step; [lia| |done].
      unfold no_progress_below_sentinel. by rewrite Hg.
Qed.

Lemma StronglySorted_lookup_lt {A} (R : relation A) l i j a b :
  StronglySorted R l -> l !! i = Some a -> l !! j = Some b -> i < j -> R a b.
Proof.
  intros Hsorted Hi Hj Hij.
  rewrite <- (take_drop j l) in Hsorted.
  eapply StronglySorted_app_1_elem_of; [done| |].
  - apply elem_of_take. eauto.
  - eapply list_elem_of_lookup_2. rewrite lookup_drop, Nat.add_0_r. done.
Qed.

(** C1, as the code has it: when no progress value lies below the sentinel
    [heapSort] ranks the goals in non-decreasing order of [getProgress], so
    the sentinel goals come first, not last. *)
Theorem heapSort_ranked_ascending (heap : addr -> Goal) (goals : list addr) :
  no_progress_below_sentinel heap goals ->
  ranked_ascending heap (heapSort heap goals).
Proof.
  intros Hall. destruct (heapSort_sorted heap goals Hall) as [Hperm Hsorted].
  split; [done|]. intros i j a b Hi Hj Ha Hb.
  destruct (decide (i < j)) as [|Hge]; [done|]. exfalso.
  destruct (decide (i = j)) as [->|Hne]; [congruence|].
  assert (progress_le heap b a) as Hba.
  { eapply (StronglySorted_lookup_lt _ _ j i); [done..|lia]. }
  assert ((sentinel <= getProgress (heap b))%Q) as Hlow.
  { unfold no_progress_below_sentinel in Hall.
    rewrite <- Hperm, Forall_forall in Hall.
    apply Hall. by eapply list_elem_of_lookup_2. }
  apply Hb. unfold is_sentinel, progress_le in *.
  apply Qle_antisym; [|done]. by rewrite <- Ha.
Qed.

Lemma heapSort_ranked_ascending_witness :
  no_progress_below_sentinel scenario_goals [0; 1; 2; 3]
  /\ ranked_ascending scenario_goals (heapSort scenario_goals [0; 1; 2; 3]).
Proof.
  assert (no_progress_below_sentinel scenario_goals [0; 1; 2; 3]) as H.
  { repeat constructor; by vm_compute. }
  split; [exact H|]. apply (heapSort_ranked_ascending scenario_goals [0; 1; 2; 3] H).
Defined.

Lemma heapSort_scenario :
  heapSort scenario_goals [0; 1; 2; 3] = [1; 3; 0; 2].
Proof. vm_compute. reflexivity. Qed.

(** C1 as stated fails on the scenario of the specification: the goals with
    progress 0.5, -1, 0.9, -1 are ranked -1, -1, 0.5, 0.9, so a sentinel
    goal stands before a goal with progress 0.5. *)
Lemma heapSort_not_ranked_descending :
  ~ ranked_descending scenario_goals (heapSort scenario_goals [0; 1; 2; 3]).
Proof.
  intros H. rewrite heapSort_scenario in H.
  destruct (H 0 2 1 0 eq_refl eq_refl) as [Hlast _].
  assert (2 < 0) as Habs; [|lia].
  apply Hlast; [by vm_compute|]. by vm_compute.
Qed.

(** Below the sentinel the order is lost: the test [!= -1] keeps a sentinel
    goal from rising above a goal with progress -2. *)
Example heapSort_below_sentinel :
  heapSort below_sentinel_goals [0; 1] = [1; 0]
  /\ ~ progress_le below_sentinel_goals 1 0.
Proof. split; [vm_compute; reflexivity|by vm_compute]. Qed.

(** * Key ordering *)

Lemma get_of_nat (v : list addr) (i : nat) : get v (Z.of_nat i) = v !!! i.
Proof. unfold get. by rewrite Nat2Z.id. Qed.

Lemma set_of_nat (v : list addr) (i : nat) (x : addr) :
  set v (Z.of_nat i) x = <[i := x]> v.
Proof. unfold set. by rewrite Nat2Z.id. Qed.

Lemma insert_middle (pre post : list addr) (x y : addr) :
  <[length pre := y]> (pre ++ x :: post) = pre ++ y :: post.
Proof.
  rewrite <- (Nat.add_0_r (length pre)) at 1. by rewrite insert_app_r.
Qed.

(** The two copy loops at the head of [merge]. *)
Lemma for_up_copy (f : Z -> addr) (n : nat) :
  for_up (Z.of_nat n) (fun i L => set L i (f i)) (replicate n nullptr)
  = f <$> seqZ 0 (Z.of_nat n).
Proof.
  unfold for_up.
  assert (forall k, k <= n ->
    fold_left (fun L i => set L i (f i)) (seqZ 0 (Z.of_nat k)) (replicate n nullptr)
    = (f <$> seqZ 0 (Z.of_nat k)) ++ replicate (n - k) nullptr) as H.
  { induction k as [|k IH]; intros Hk.
    - by rewrite Nat.sub_0_r.
    - rewrite seqZ_S, fold_left_app, IH by lia. simpl.
      rewrite fmap_app, Z.add_0_l, set_of_nat. simpl.
      replace (n - k) with (S (n - S k)) by lia. simpl.
      replace k with (length (f <$> seqZ 0 (Z.of_nat k))) at 1
        by (by rewrite length_fmap, length_seqZ, Nat2Z.id).
      rewrite insert_middle. by rewrite <- app_assoc. }
  rewrite H by lia. by rewrite Nat.sub_diag, app_nil_r.
Qed.

Lemma copy_of_segment (pre seg post : list addr) :
  (fun i => get (pre ++ seg ++ post) (Z.of_nat (length pre) + i))
    <$> seqZ 0 (Z.of_nat (length seg))
  = seg.
Proof.
  apply list_eq; intros k. rewrite list_lookup_fmap.
  destruct (decide (k < length seg)) as [Hk|Hk].
  - rewrite lookup_seqZ_lt by lia. simpl.
    rewrite Z.add_0_l, <- Nat2Z.inj_add, get_of_nat.
    rewrite lookup_total_app_r by lia.
    replace (length pre + k - length pre) with k by lia.
    rewrite lookup_total_app_l by done.
    symmetry. by apply list_lookup_lookup_total_lt.
  - rewrite lookup_seqZ_ge by lia. simpl. symmetry. apply lookup_ge_None_2. lia.
Qed.

Lemma filter_none {A} (P : A -> Prop) `{forall a, Decision (P a)} (l : list A) :
  Forall (fun x => ~ P x) l -> filter P l = [].
Proof.
  induction 1 as [|x l Hx _ IH]; [done|]. by rewrite filter_cons_False.
Qed.

Section KeyOrderingProofs.
Variable heap : addr -> Task.
Variable key_le : Task -> Task -> bool.
Hypothesis key_le_total : forall a b, key_le a b = true \/ key_le b a = true.
Hypothesis key_le_trans :
  forall a b c, key_le a b = true -> key_le b c = true -> key_le a c = true.

Local Abbreviation lmerge := (lmerge heap key_le).
Local Abbreviation key_before := (key_before heap key_le).

Lemma lmerge_nil_r l : lmerge l [] = l.
Proof. by destruct l. Qed.

Lemma lmerge_cons_cons a l b r :
  lmerge (a :: l) (b :: r)
  = if key_le (heap a) (heap b) then a :: lmerge l (b :: r)
    else b :: lmerge (a :: l) r.
Proof. reflexivity. Qed.

Lemma lmerge_Permutation l r : lmerge l r ≡ₚ l ++ r.
Proof.
  revert r; induction l as [|a l IHl]; intros r; [done|].
  induction r as [|b r IHr]; [by rewrite lmerge_nil_r, app_nil_r|].
  rewrite lmerge_cons_cons. destruct (key_le (heap a) (heap b)).
  - by rewrite IHl.
  - rewrite IHr. by rewrite <- Permutation_middle.
Qed.

Lemma lmerge_sorted l r :
  StronglySorted key_before l -> StronglySorted key_before r ->
  StronglySorted key_before (lmerge l r).
Proof.
  revert r; induction l as [|a l IHl]; intros r Hl Hr; [done|].
  induction r as [|b r IHr]; [by rewrite lmerge_nil_r|].
  apply StronglySorted_cons in Hl as [Hal Hl].
  pose proof Hr as Hbr'. apply StronglySorted_cons in Hr as [Hbr Hr].
  rewrite lmerge_cons_cons. destruct (key_le (heap a) (heap b)) eqn:Hab.
  - apply StronglySorted_cons. split; [|by apply IHl].
    rewrite lmerge_Permutation. apply Forall_app. split; [done|].
    constructor; [done|]. eapply Forall_impl; [exact Hbr|].
    intros c Hbc. by eapply key_le_trans.
  - assert (key_before b a) as Hba by (destruct (key_le_total (heap a) (heap b)); congruence).
    apply StronglySorted_cons. split; [|by apply IHr].
    rewrite lmerge_Permutation. apply Forall_app. split; [|done].
    constructor; [done|]. eapply Forall_impl; [exact Hal|].
    intros c Hac. by eapply key_le_trans.
Qed.

Lemma lmerge_filter (P : addr -> Prop) `{forall a, Decision (P a)} l r :
  (forall a b, P a -> P b -> key_before a b) ->
  StronglySorted key_before l ->
  filter P (lmerge l r) = filter P l ++ filter P r.
Proof.
  intros HP. revert r; induction l as [|a l IHl]; intros r Hl; [done|].
  induction r as [|b r IHr]; [by rewrite lmerge_nil_r, app_nil_r|].
  pose proof Hl as Hl'. apply StronglySorted_cons in Hl' as [Hal Hl'].
  rewrite lmerge_cons_cons. destruct (key_le (heap a) (heap b)) eqn:Hab.
  - rewrite !filter_cons, IHl by done. rewrite filter_cons. by destruct (decide (P a)).
  - rewrite (filter_cons _ b (lmerge _ _)), IHr, (filter_cons _ b r).
    destruct (decide (P b)) as [Hb|]; [|done].
    (* no element of [a :: l] has the key of [b] *)
    assert (filter P (a :: l) = []) as ->; [|done].
    apply filter_none. apply Forall_forall. intros y Hy Py.
    assert (key_before a y) as Hay.
    { apply elem_of_cons in Hy as [->|Hy].
      - unfold key_before. by destruct (key_le_total (heap a) (heap a)).
      - rewrite Forall_forall in Hal. by apply Hal. }
    pose proof (key_le_trans _ _ _ Hay (HP y b Py Hb)). congruence.
Qed.

Lemma copy_remaining_segment src n (mid : list addr) :
  forall i pre post,
    length src = n -> i <= n -> length mid = n - i ->
    copy_remaining src (Z.of_nat n) (pre ++ mid ++ post) (Z.of_nat i)
      (Z.of_nat (length pre))
    = (pre ++ drop i src ++ post, Z.of_nat n, Z.of_nat (length pre + (n - i))).
Proof.
  induction mid as [|x mid IH]; intros i pre post Hsrc Hi Hmid; simpl in Hmid;
    rewrite copy_remaining_equation_1.
  - rewrite decide_False by lia. assert (i = n) as -> by lia.
    rewrite drop_ge by lia. by rewrite Nat.sub_diag, Nat.add_0_r.
  - rewrite decide_True by lia.
    rewrite set_of_nat, get_of_nat. simpl. rewrite insert_middle.
    replace (Z.of_nat i + 1)%Z with (Z.of_nat (S i)) by lia.
    replace (Z.of_nat (length pre) + 1)%Z with (Z.of_nat (length (pre ++ [src !!! i])))
      by (rewrite length_app; simpl; lia).
    replace (pre ++ src !!! i :: mid ++ post) with ((pre ++ [src !!! i]) ++ mid ++ post)
      by (by rewrite <- app_assoc).
    rewrite IH by lia. rewrite length_app. simpl.
    rewrite <- app_assoc. simpl.
    rewrite (drop_S src (src !!! i) i) by (apply list_lookup_lookup_total_lt; lia).
    by replace (length pre + 1 + (n - S i)) with (length pre + (n - i)) by lia.
Qed.

Lemma copy_remaining_spec src n i k tasks pre mid post :
  tasks = pre ++ mid ++ post -> k = Z.of_nat (length pre) ->
  length src = n -> i <= n -> length mid = n - i ->
  copy_remaining src (Z.of_nat n) tasks (Z.of_nat i) k
  = (pre ++ drop i src ++ post, Z.of_nat n, Z.of_nat (length pre + (n - i))).
Proof. intros -> ->. apply copy_remaining_segment. Qed.

(** The three [while] loops of [merge], from any state they reach. *)
Lemma merge_loops_spec L R (mid : list addr) :
  forall i j pre post,
    i <= length L -> j <= length R ->
    length mid = (length L - i) + (length R - j) ->
    (let '(tasks, i, j, k) :=
       merge_loop heap key_le L R (Z.of_nat (length L)) (Z.of_nat (length R))
         (pre ++ mid ++ post) (Z.of_nat i) (Z.of_nat j) (Z.of_nat (length pre)) in
     let '(tasks, i, k) := copy_remaining L (Z.of_nat (length L)) tasks i k in
     let '(tasks, j, k) := copy_remaining R (Z.of_nat (length R)) tasks j k in
     tasks)
    = pre ++ lmerge (drop i L) (drop j R) ++ post.
Proof.
  induction mid as [|x mid IH]; intros i j pre post Hi Hj Hmid; simpl in Hmid;
    rewrite merge_loop_equation_1.
  - rewrite decide_False by lia.
    rewrite (copy_remaining_spec L (length L) i _ _ pre [] post) by (simpl; lia || done).
    rewrite (copy_remaining_spec R (length R) j _ _ (pre ++ drop i L) [] post);
      [|by rewrite <- app_assoc|rewrite length_app, length_drop; f_equal; lia
       |done|done|simpl; lia].
    rewrite !drop_ge by lia. by rewrite <- app_assoc.
  - destruct (decide (i < length L /\ j < length R)) as [[Hi' Hj']|Hexit].
    + rewrite decide_True by lia.
      rewrite !get_of_nat, !set_of_nat. simpl. rewrite !insert_middle.
      rewrite (drop_S L (L !!! i) i) by (by apply list_lookup_lookup_total_lt).
      rewrite (drop_S R (R !!! j) j) by (by apply list_lookup_lookup_total_lt).
      rewrite lmerge_cons_cons.
      replace (Z.of_nat (length pre) + 1)%Z with (Z.of_nat (length (pre ++ [L !!! i])))
        by (rewrite length_app; simpl; lia).
      destruct (key_le (heap (L !!! i)) (heap (R !!! j))).
      * replace (Z.of_nat i + 1)%Z with (Z.of_nat (S i)) by lia.
        replace (pre ++ L !!! i :: mid ++ post) with ((pre ++ [L !!! i]) ++ mid ++ post)
          by (by rewrite <- app_assoc).
        rewrite IH by lia.
        rewrite <- (drop_S R (R !!! j) j) by (by apply list_lookup_lookup_total_lt).
        by rewrite <- app_assoc.
      * replace (Z.of_nat j + 1)%Z with (Z.of_nat (S j)) by lia.
        replace (length (pre ++ [L !!! i])) with (length (pre ++ [R !!! j]))
          by (by rewrite !length_app).
        replace (pre ++ R !!! j :: mid ++ post) with ((pre ++ [R !!! j]) ++ mid ++ post)
          by (by rewrite <- app_assoc).
        rewrite IH by lia.
        rewrite <- (drop_S L (L !!! i) i) by (by apply list_lookup_lookup_total_lt).
        by rewrite <- app_assoc.
    + rewrite decide_False by lia.
      destruct (decide (i < length L)) as [Hi'|Hi'].
      * (* [R] is used up: the rest of [L] is copied *)
        assert (j = length R) as -> by lia.
        rewrite (copy_remaining_spec L (length L) i _ _ pre (x :: mid) post)
          by (simpl; lia || done).
        rewrite (copy_remaining_spec R (length R) (length R) _ _ (pre ++ drop i L) [] post);
          [|by rewrite <- app_assoc|rewrite length_app, length_drop; f_equal; lia
           |done|done|simpl; lia].
        rewrite (drop_ge R) by lia. by rewrite lmerge_nil_r, <- app_assoc.
      * (* [L] is used up: the rest of [R] is copied *)
        assert (i = length L) as -> by lia.
        rewrite (copy_remaining_spec L (length L) (length L) _ _ pre []
                   ((x :: mid) ++ post)) by (simpl; lia || done).
        rewrite drop_ge by lia. simpl.
        rewrite (copy_remaining_spec R (length R) j _ _ pre (x :: mid) post);
          [done|done|f_equal; lia|done|done|simpl; lia].
Qed.

Lemma merge_by_spec pre l r post lo mid hi :
  lo = Z.of_nat (length pre) ->
  mid = (Z.of_nat (length pre + length l) - 1)%Z ->
  hi = (Z.of_nat (length pre + length l + length r) - 1)%Z ->
  merge_by heap key_le (pre ++ l ++ r ++ post) lo mid hi = pre ++ lmerge l r ++ post.
Proof.
  intros -> -> ->. unfold merge_by.
  replace (Z.of_nat (length pre + length l) - 1 - Z.of_nat (length pre) + 1)%Z
    with (Z.of_nat (length l)) by lia.
  replace (Z.of_nat (length pre + length l + length r) - 1
           - (Z.of_nat (length pre + length l) - 1))%Z
    with (Z.of_nat (length r)) by lia.
  replace (Z.of_nat (length pre + length l) - 1 + 1)%Z
    with (Z.of_nat (length (pre ++ l))) by (rewrite length_app; lia).
  rewrite !Nat2Z.id, !for_up_copy.
  rewrite (copy_of_segment pre l (r ++ post)).
  assert ((fun j => get (pre ++ l ++ r ++ post) (Z.of_nat (length (pre ++ l)) + j))
            <$> seqZ 0 (Z.of_nat (length r)) = r) as ->.
  { replace (pre ++ l ++ r ++ post) with ((pre ++ l) ++ r ++ post)
      by (by rewrite <- app_assoc).
    apply copy_of_segment. }
  replace (pre ++ l ++ r ++ post) with (pre ++ (l ++ r) ++ post)
    by (by rewrite <- !app_assoc).
  apply (merge_loops_spec l r (l ++ r) 0 0 pre post); [lia|lia|].
  rewrite length_app. lia.
Qed.

Lemma stably_sorted_refl seg :
  length seg <= 1 -> stably_sorted heap key_le seg seg.
Proof.
  intros Hlen. split; [|split; [done|done]].
  destruct seg as [|a [|b seg]]; [constructor|repeat constructor|simpl in Hlen; lia].
Qed.

Lemma stably_sorted_lmerge s1 seg1 s2 seg2 :
  stably_sorted heap key_le s1 seg1 -> stably_sorted heap key_le s2 seg2 ->
  stably_sorted heap key_le (lmerge s1 s2) (seg1 ++ seg2).
Proof.
  intros (Hs1 & Hp1 & Hf1) (Hs2 & Hp2 & Hf2). split; [|split].
  - by apply lmerge_sorted.
  - by rewrite lmerge_Permutation, Hp1, Hp2.
  - intros P HdecP HP. rewrite lmerge_filter, filter_app by done.
    by rewrite Hf1, Hf2.
Qed.

Lemma mergeSort_by_spec n :
  forall seg pre post tasks lo hi,
    length seg <= n ->
    tasks = pre ++ seg ++ post ->
    lo = Z.of_nat (length pre) ->
    hi = (Z.of_nat (length pre + length seg) - 1)%Z ->
    exists s, mergeSort_by heap key_le tasks lo hi = pre ++ s ++ post
              /\ stably_sorted heap key_le s seg.
Proof.
  induction n as [|n IH]; intros seg pre post tasks lo hi Hn -> -> ->;
    rewrite mergeSort_by_equation_1.
  - exists seg. rewrite decide_True by lia.
    split; [done|]. apply stably_sorted_refl. lia.
  - destruct (decide (length seg <= 1)) as [Hshort|Hlong].
    { exists seg. rewrite decide_True by lia.
      split; [done|]. by apply stably_sorted_refl. }
    rewrite decide_False by lia. cbv zeta.
    set (h := (length seg - 1) / 2).
    assert (h < length seg - 1) as Hh.
    { subst h. apply Nat.div_lt; lia. }
    assert ((Z.of_nat (length pre)
             + (Z.of_nat (length pre + length seg) - 1 - Z.of_nat (length pre)) `quot` 2
             = Z.of_nat (length pre + S h) - 1)%Z) as Hmid.
    { replace (Z.of_nat (length pre + length seg) - 1 - Z.of_nat (length pre))%Z
        with (Z.of_nat (length seg - 1)) by lia.
      rewrite Z.quot_div_nonneg by lia.
      change 2%Z with (Z.of_nat 2). rewrite <- Nat2Z.inj_div. subst h. lia. }
    rewrite Hmid.
    set (seg1 := take (S h) seg). set (seg2 := drop (S h) seg).
    assert (length seg1 = S h) as Hlen1 by (subst seg1; rewrite length_take; lia).
    assert (length seg2 = length seg - S h) as Hlen2
      by (subst seg2; by rewrite length_drop).
    assert (seg = seg1 ++ seg2) as Hseg by (subst seg1 seg2; by rewrite take_drop).
    destruct (IH seg1 pre (seg2 ++ post) (pre ++ seg ++ post)
                (Z.of_nat (length pre)) (Z.of_nat (length pre + S h) - 1)%Z)
      as (s1 & -> & Hs1); [lia|by rewrite Hseg, <- app_assoc|done|by rewrite Hlen1|].
    pose proof (Permutation_length (proj1 (proj2 Hs1))) as Hls1.
    destruct (IH seg2 (pre ++ s1) post (pre ++ s1 ++ seg2 ++ post)
                (Z.of_nat (length pre + S h) - 1 + 1)%Z
                (Z.of_nat (length pre + length seg) - 1)%Z)
      as (s2 & -> & Hs2);
      [lia|by rewrite <- app_assoc|rewrite length_app; lia|rewrite length_app; lia|].
    pose proof (Permutation_length (proj1 (proj2 Hs2))) as Hls2.
    exists (lmerge s1 s2). split.
    + rewrite <- app_assoc. apply merge_by_spec; lia.
    + rewrite Hseg. by apply stably_sorted_lmerge.
Qed.

(** The call [mergeSort(tasks, 0, tasks.size() - 1)], for either key. *)
Lemma mergeSort_by_whole tasks :
  stably_sorted heap key_le
    (mergeSort_by heap key_le tasks 0 (Z.of_nat (length tasks) - 1)) tasks.
Proof.
  destruct (mergeSort_by_spec (length tasks) tasks [] [] tasks 0
              (Z.of_nat (length tasks) - 1)) as (s & Hs & Hsorted);
    [done|by rewrite app_nil_r|done|done|].
  rewrite Hs. simpl. by rewrite app_nil_r.
Qed.

End KeyOrderingProofs.

Lemma StronglySorted_impl {A} (R1 R2 : relation A) (l : list A) :
  (forall a b, R1 a b -> R2 a b) -> StronglySorted R1 l -> StronglySorted R2 l.
Proof.
  intros HR. induction 1 as [|a l _ IH Hal]; constructor; [done|].
  eapply Forall_impl; [exact Hal|]. auto.
Qed.

Lemma priority_le_total a b : priority_le a b = true \/ priority_le b a = true.
Proof. unfold priority_le. rewrite !Z.leb_le. lia. Qed.

Lemma priority_le_trans a b c :
  priority_le a b = true -> priority_le b c = true -> priority_le a c = true.
Proof. unfold priority_le. rewrite !Z.leb_le. lia. Qed.

(** C2: sorting by priority yields the tasks in ascending order of
    priority; the result is a permutation of the input, and the tasks of
    each priority keep their order. *)
Theorem sortTasksByPriority_spec (heap : addr -> Task) (tasks : list addr) :
  StronglySorted (fun a b => (priority (heap a) <= priority (heap b))%Z)
    (sortTasksByPriority heap tasks)
  /\ sortTasksByPriority heap tasks ≡ₚ tasks
  /\ forall p : Z,
       filter (fun a => priority (heap a) = p) (sortTasksByPriority heap tasks)
       = filter (fun a => priority (heap a) = p) tasks.
Proof.
  destruct (mergeSort_by_whole heap priority_le priority_le_total priority_le_trans tasks)
    as (Hsorted & Hperm & Hstable).
  split; [|split; [done|]].
  - eapply StronglySorted_impl; [|exact Hsorted].
    intros a b. unfold key_before, priority_le. by rewrite Z.leb_le.
  - intros p. apply Hstable. intros a b Ha Hb.
    unfold key_before, priority_le. rewrite Z.leb_le. lia.
Qed.

Lemma text_le_lex a b : text_le a b = true <-> lex_le a b.
Proof.
  unfold text_le. revert b; induction a as [|x a IH]; intros [|y b]; simpl.
  - split; [constructor|done].
  - split; [constructor|done].
  - split; [done|inversion 1].
  - destruct (N.compare_spec (N_of_ascii x) (N_of_ascii y)) as [Heq|Hlt|Hgt].
    + assert (x = y) as ->.
      { by rewrite <- (ascii_N_embedding x), <- (ascii_N_embedding y), Heq. }
      rewrite IH. split; [by constructor|]. inversion 1; subst; [lia|done].
    + split; [by constructor|done].
    + split; [done|]. inversion 1; subst; lia.
Qed.

Lemma text_le_total a b : text_le a b = true \/ text_le b a = true.
Proof.
  unfold text_le. revert b; induction a as [|x a IH]; intros [|y b]; simpl; auto.
  rewrite (N.compare_antisym (N_of_ascii x) (N_of_ascii y)).
  destruct (N_of_ascii x ?= N_of_ascii y)%N; simpl; auto.
Qed.

Lemma text_le_trans a b c :
  text_le a b = true -> text_le b c = true -> text_le a c = true.
Proof.
  unfold text_le. revert b c; induction a as [|x a IH]; intros [|y b] [|z c]; simpl;
    try done.
  destruct (N.compare_spec (N_of_ascii x) (N_of_ascii y)),
    (N.compare_spec (N_of_ascii y) (N_of_ascii z)),
    (N.compare_spec (N_of_ascii x) (N_of_ascii z));
    try done; try lia; apply IH.
Qed.

Lemma text_le_refl a : text_le a a = true.
Proof. by destruct (text_le_total a a). Qed.

Lemma deadline_le_total a b : deadline_le a b = true \/ deadline_le b a = true.
Proof. apply text_le_total. Qed.

Lemma deadline_le_trans a b c :
  deadline_le a b = true -> deadline_le b c = true -> deadline_le a c = true.
Proof. apply text_le_trans. Qed.

(** C4: sorting by deadline yields the tasks in ascending lexicographic
    order of the deadline strings; the result is a permutation of the input,
    and the tasks of each deadline string keep their order. *)
Theorem sortTasksByDeadline_spec (heap : addr -> Task) (tasks : list addr) :
  StronglySorted (fun a b => lex_le (deadline (heap a)) (deadline (heap b)))
    (sortTasksByDeadline heap tasks)
  /\ sortTasksByDeadline heap tasks ≡ₚ tasks
  /\ forall d : text,
       filter (fun a => deadline (heap a) = d) (sortTasksByDeadline heap tasks)
       = filter (fun a => deadline (heap a) = d) tasks.
Proof.
  destruct (mergeSort_by_whole heap deadline_le deadline_le_total deadline_le_trans tasks)
    as (Hsorted & Hperm & Hstable).
  split; [|split; [done|]].
  - eapply StronglySorted_impl; [|exact Hsorted].
    intros a b. unfold key_before, deadline_le. by rewrite text_le_lex.
  - intros d. apply Hstable. intros a b Ha Hb.
    unfold key_before, deadline_le. rewrite Ha, Hb. apply text_le_refl.
Qed.

(** The scenario of the specification, run: priorities 5, 1, 3 come out as
    1, 3, 5, and likewise the deadlines. *)
Example sortTasks_scenario :
  sortTasksByPriority scenario_tasks [0; 1; 2] = [1; 2; 0]
  /\ sortTasksByDeadline scenario_tasks [0; 1; 2] = [1; 2; 0].
Proof. split; vm_compute; reflexivity. Qed.

(** * Substring search *)

(** A [while] loop with invariant [I] and variant [V] ends, given fuel
    above the variant, in a state of [I] where the condition fails. *)
Lemma while_spec {S : Type} (I : S -> Prop) (V : S -> nat) cond body :
  (forall s, I s -> cond s = true -> I (body s) /\ V (body s) < V s) ->
  forall fuel s, I s -> V s < fuel ->
    exists s', while fuel cond body s = Some s' /\ I s' /\ cond s' = false.
Proof.
  intros Hstep. induction fuel as [|fuel IH]; intros s Hs Hfuel; [lia|].
  simpl. destruct (cond s) eqn:Hcond; [|by exists s].
  destruct (Hstep s Hs Hcond) as [Hs' HV]. apply IH; [done|lia].
Qed.

Lemma while_return_spec {S R : Type} (I : S -> Prop) (V : S -> nat) (Q : R -> Prop)
  cond (body : S -> R + S) :
  (forall s, I s -> cond s = true ->
     match body s with
     | inl r => Q r
     | inr s' => I s' /\ V s' < V s
     end) ->
  forall fuel s, I s -> V s < fuel ->
    exists res, while_return fuel cond body s = Some res
      /\ match res with
         | inl r => Q r
         | inr s' => I s' /\ cond s' = false
         end.
Proof.
  intros Hstep. induction fuel as [|fuel IH]; intros s Hs Hfuel; [lia|].
  simpl. destruct (cond s) eqn:Hcond; [|by exists (inr s)].
  specialize (Hstep s Hs Hcond). destruct (body s) as [r|s'].
  - by exists (inl r).
  - destruct Hstep as [Hs' HV]. apply IH; [done|lia].
Qed.

(** ** Borders *)

Lemma border_zero pattern k : 0 < k -> border pattern k 0.
Proof. intros Hk. split; [done|]. intros x Hx. lia. Qed.

Lemma border_extend pattern k b :
  border pattern k b -> pattern !! b = pattern !! k ->
  border pattern (S k) (S b).
Proof.
  intros [Hb Hborder] Heq. split; [lia|]. intros x Hx.
  destruct (decide (x = b)) as [->|Hne].
  - rewrite Heq. f_equal; lia.
  - rewrite Hborder by lia. f_equal; lia.
Qed.

Lemma border_shrink pattern k b :
  border pattern (S k) (S b) ->
  border pattern k b /\ pattern !! b = pattern !! k.
Proof.
  intros [Hb Hborder]. split; [split; [lia|]|].
  - intros x Hx. rewrite Hborder by lia. f_equal; lia.
  - rewrite Hborder by lia. f_equal; lia.
Qed.

Lemma border_compose pattern k b c :
  border pattern k b -> border pattern b c -> border pattern k c.
Proof.
  intros [Hb Hkb] [Hc Hbc]. split; [lia|]. intros x Hx.
  rewrite (Hbc x), (Hkb (b - c + x)) by lia. f_equal; lia.
Qed.

Lemma border_nest pattern k b c :
  border pattern k b -> border pattern k c -> c < b -> border pattern b c.
Proof.
  intros [Hb Hkb] [Hc Hkc] Hcb. split; [done|]. intros x Hx.
  rewrite (Hkc x), (Hkb (b - c + x)) by lia. f_equal; lia.
Qed.

Lemma lookup_total_eq_lookup (pattern : text) a b :
  a < length pattern -> b < length pattern ->
  pattern !!! a = pattern !!! b <-> pattern !! a = pattern !! b.
Proof.
  intros Ha Hb. rewrite !list_lookup_lookup_total_lt by done.
  split; [by intros ->|by intros [= ->]].
Qed.

(** ** The failure table *)

Lemma table_body_invariant pattern st :
  table_invariant pattern st ->
  (let '(_, _, i) := st in bool_decide (i < length pattern)) = true ->
  table_invariant pattern (table_body pattern st)
  /\ table_variant pattern (table_body pattern st) < table_variant pattern st.
Proof.
  destruct st as [[lps len] i].
  intros (Hi & [Hlen Htable] & Hborder & Hcand) Him.
  apply bool_decide_eq_true in Him. specialize (Hcand Him).
  pose proof (proj1 Hborder) as Hleni.
  unfold table_body. case_bool_decide as Hchar.
  - (* the border grows by one character *)
    apply lookup_total_eq_lookup in Hchar; [|lia..].
    assert (border pattern (S i) (S len)) as Hnew.
    { apply border_extend; [done|by symmetry]. }
    assert (longest_border pattern (S i) (S len)) as Hlongest.
    { split; [done|]. intros [|c] Hc; [lia|]. apply Hcand in Hc. lia. }
    split; [|simpl; lia]. replace (len + 1) with (S len) by lia.
    replace (i + 1) with (S i) by lia.
    split; [lia|]. split; [split; [by rewrite length_insert|]|split; [done|]].
    + intros k Hk. destruct (decide (k = i)) as [->|Hne].
      * by rewrite list_lookup_total_insert_eq by lia.
      * rewrite list_lookup_total_insert_ne by done. apply Htable. lia.
    + intros _ b Hb. apply border_shrink in Hb as [Hb _].
      by apply Hlongest.
  - assert (pattern !! i <> pattern !! len) as Hchar'.
    { intros Heq. apply Hchar. apply lookup_total_eq_lookup; [lia..|done]. }
    case_bool_decide as Hlen0.
    + (* fall back to the longest border of the current border *)
      destruct (Htable (len - 1)) as [Hfall Hfall_max]; [lia|].
      replace (S (len - 1)) with len in * by lia.
      split; [|simpl; destruct Hfall; lia].
      split; [lia|]. split; [done|]. split; [by eapply border_compose|].
      intros _ b Hb. pose proof (Hcand b Hb) as Hble.
      apply border_shrink in Hb as [Hb Hbi].
      destruct (decide (b = len)) as [->|Hne]; [by symmetry in Hbi|].
      apply Hfall_max. apply (border_nest pattern i); [done|done|lia].
    + (* no border at all *)
      assert (len = 0) as -> by lia.
      assert (longest_border pattern (S i) 0) as Hlongest.
      { split; [apply border_zero; lia|]. intros [|c] Hc; [lia|].
        pose proof (Hcand c Hc). assert (c = 0) as -> by lia.
        apply border_shrink in Hc as [_ Hc]. by symmetry in Hc. }
      split; [|simpl; lia]. replace (i + 1) with (S i) by lia.
      split; [lia|]. split; [split; [by rewrite length_insert|]|split].
      * intros k Hk. destruct (decide (k = i)) as [->|Hne].
        -- by rewrite list_lookup_total_insert_eq by lia.
        -- rewrite list_lookup_total_insert_ne by done. apply Htable. lia.
      * apply border_zero. lia.
      * intros _ b Hb. apply border_shrink in Hb as [Hb _].
        by apply Hlongest.
Qed.

Lemma computeKMPTable_spec fuel pattern :
  pattern <> [] -> 2 * length pattern < fuel ->
  exists lps, computeKMPTable fuel pattern = Some lps
              /\ table_upto pattern lps (length pattern).
Proof.
  intros Hne Hfuel.
  assert (0 < length pattern) as Hm by (destruct pattern; [done|simpl; lia]).
  unfold computeKMPTable.
  destruct (while_spec (table_invariant pattern) (table_variant pattern)
              (fun '(lps, len, i) => bool_decide (i < length pattern))
              (table_body pattern)) with (fuel := fuel)
      (s := (replicate (length pattern) 0, 0, 1))
    as ([[lps len] i] & Hrun & Hinv & Hexit).
  - intros [[lps len] i] Hinv Hcond.
    by apply (table_body_invariant pattern (lps, len, i)).
  - split; [lia|]. split; [split; [by rewrite length_replicate|]|split].
    + intros k Hk. assert (k = 0) as -> by lia.
      rewrite lookup_total_replicate_2 by lia.
      split; [apply border_zero; lia|]. intros c [Hc _]. lia.
    + apply border_zero. lia.
    + intros _ b [Hb _]. lia.
  - simpl. lia.
  - unfold table_body in Hrun. rewrite Hrun. exists lps. split; [done|].
    apply bool_decide_eq_false in Hexit.
    destruct Hinv as (Hi & Htable & _).
    by replace (length pattern) with i by lia.
Qed.

(** ** The search loop *)

Lemma occurs_at_occurs text_ pattern s :
  occurs_at text_ pattern s -> occurs pattern text_.
Proof.
  intros Hat. exists (take s text_), (drop (s + length pattern) text_).
  assert (pattern = take (length pattern) (drop s text_)) as Hp.
  { apply list_eq; intros x.
    destruct (decide (x < length pattern)) as [Hx|Hx].
    - by rewrite lookup_take_lt, lookup_drop, Hat.
    - rewrite lookup_take_ge by lia. apply lookup_ge_None_2. lia. }
  transitivity (take s text_ ++ take (length pattern) (drop s text_)
                 ++ drop (length pattern) (drop s text_)).
  - by rewrite !take_drop.
  - by rewrite <- Hp, drop_drop.
Qed.

Lemma occurs_occurs_at text_ pattern :
  occurs pattern text_ ->
  exists s, occurs_at text_ pattern s /\ s + length pattern <= length text_.
Proof.
  intros (pre & post & ->). exists (length pre). split.
  - intros x Hx. rewrite lookup_app_r by lia.
    replace (length pre + x - length pre) with x by lia.
    by rewrite lookup_app_l.
  - rewrite !length_app. lia.
Qed.

Lemma lookup_total_neq_lookup (a b : text) i j :
  i < length a -> j < length b ->
  a !!! i <> b !!! j -> a !! i <> b !! j.
Proof.
  intros Hi Hj Hne. rewrite !list_lookup_lookup_total_lt by done. congruence.
Qed.

Lemma search_body_invariant text_ pattern lps st :
  table_upto pattern lps (length pattern) ->
  search_invariant text_ pattern st ->
  (let '(i, _) := st in bool_decide (i < length text_)) = true ->
  match search_body text_ pattern lps st with
  | inl r => r = true /\ occurs pattern text_
  | inr st' =>
      search_invariant text_ pattern st'
      /\ search_variant text_ st' < search_variant text_ st
  end.
Proof.
  destruct st as [i j]. intros [_ Htable] (Hji & Hin & Hjm & Hmatch & Hnone) Hi.
  apply bool_decide_eq_true in Hi. unfold search_body.
  case_bool_decide as Hchar.
  - assert (text_ !! i = pattern !! j) as Hchar'.
    { rewrite !list_lookup_lookup_total_lt by done. by rewrite Hchar. }
    case_bool_decide as Hlast.
    + split; [done|]. apply (occurs_at_occurs _ _ (i - j)). intros x Hx.
      destruct (decide (x = j)) as [->|Hne].
      * by replace (i - j + j) with i by lia.
      * apply Hmatch. lia.
    + split; [|simpl; lia]. split; [lia|]. split; [lia|]. split; [lia|].
      replace (i + 1 - (j + 1)) with (i - j) by lia. split; [|done].
      intros x Hx. destruct (decide (x = j)) as [->|Hne].
      * by replace (i - j + j) with i by lia.
      * apply Hmatch. lia.
  - apply lookup_total_neq_lookup in Hchar; [|done..].
    case_bool_decide as Hj0.
    + destruct (Htable (j - 1)) as [[Hfall Hborder] Hfall_max]; [lia|].
      replace (S (j - 1)) with j in * by lia.
      set (j' := lps !!! (j - 1)) in *.
      split; [|simpl; lia]. split; [lia|]. split; [lia|]. split; [lia|]. split.
      * intros x Hx. rewrite (Hborder x Hx), <- Hmatch by lia. f_equal; lia.
      * intros s Hs Hat.
        destruct (decide (s < i - j)) as [Hlt|Hge]; [by apply (Hnone s)|].
        destruct (decide (s = i - j)) as [->|Hne].
        { apply Hchar. rewrite <- (Hat j) by done. f_equal; lia. }
        assert (i - s <= j') as Hle; [|lia].
        apply Hfall_max. split; [lia|]. intros x Hx.
        rewrite <- (Hat x), <- Hmatch by lia. f_equal; lia.
    + assert (j = 0) as -> by lia.
      split; [|simpl; lia]. split; [lia|]. split; [lia|]. split; [lia|]. split.
      * intros x Hx. lia.
      * intros s Hs Hat.
        destruct (decide (s < i)) as [Hlt|Hge]; [apply (Hnone s); [lia|done]|].
        assert (s = i) as -> by lia.
        apply Hchar. rewrite <- (Hat 0) by done. f_equal; lia.
Qed.

Lemma KMPSearch_correct fuel text_ pattern :
  pattern <> [] -> 2 * (length text_ + length pattern) < fuel ->
  KMPSearch fuel text_ pattern = Some (bool_decide (occurs pattern text_)).
Proof.
  intros Hne Hfuel.
  assert (0 < length pattern) as Hm by (destruct pattern; [done|simpl; lia]).
  unfold KMPSearch. rewrite bool_decide_eq_false_2 by done.
  destruct (computeKMPTable_spec fuel pattern Hne) as (lps & -> & Htable); [lia|].
  destruct (while_return_spec (search_invariant text_ pattern) (search_variant text_)
              (fun r => r = true /\ occurs pattern text_)
              (fun '(i, j) => bool_decide (i < length text_))
              (search_body text_ pattern lps)) with (fuel := fuel) (s := (0, 0))
    as (res & Hrun & Hres).
  - intros [i j] Hinv Hcond.
    by apply (search_body_invariant text_ pattern lps (i, j)).
  - split; [lia|]. split; [lia|]. split; [lia|]. split; intros x Hx; lia.
  - simpl. lia.
  - unfold search_body in Hrun. rewrite Hrun.
    destruct res as [r|[i j]].
    + destruct Hres as [-> Hocc]. by rewrite bool_decide_eq_true_2.
    + destruct Hres as [(Hji & Hin & Hjm & Hmatch & Hnone) Hexit].
      apply bool_decide_eq_false in Hexit.
      rewrite bool_decide_eq_false_2; [done|].
      intros (s & Hat & Hs)%occurs_occurs_at.
      apply (Hnone s); [lia|done].
Qed.

Lemma KMPSearch_empty_pattern fuel text_ : KMPSearch fuel text_ [] = Some false.
Proof. reflexivity. Qed.

(** C3: with enough fuel for its loops, [KMPSearch] on a non-empty pattern
    returns true exactly when the pattern occurs as a contiguous substring
    of the text; on the empty pattern it returns false. *)
Theorem KMPSearch_spec (text_ : text) :
  (forall fuel pattern,
     pattern <> [] -> 2 * (length text_ + length pattern) < fuel ->
     KMPSearch fuel text_ pattern = Some (bool_decide (occurs pattern text_)))
  /\ (forall fuel, KMPSearch fuel text_ [] = Some false).
Proof.
  split.
  - intros fuel pattern Hne Hfuel. by apply KMPSearch_correct.
  - intros fuel. apply KMPSearch_empty_pattern.
Qed.

Lemma KMPSearch_spec_witness :
  str "apollo" <> []
  /\ 2 * (length (str "daily standup notes about project apollo")
          + length (str "apollo")) < 100
  /\ KMPSearch 100 (str "daily standup notes about project apollo") (str "apollo")
     = Some (bool_decide (occurs (str "apollo")
                            (str "daily standup notes about project apollo")))
  /\ KMPSearch 0 (str "daily standup notes about project apollo") [] = Some false.
Proof.
  assert (str "apollo" <> []) as Hne by (by vm_compute).
  assert (2 * (length (str "daily standup notes about project apollo")
               + length (str "apollo")) < 100) as Hfuel by (vm_compute; lia).
  destruct (KMPSearch_spec (str "daily standup notes about project apollo"))
    as [Hfound Hempty].
  split; [exact Hne|]. split; [exact Hfuel|]. split.
  - exact (Hfound 100 (str "apollo") Hne Hfuel).
  - exact (Hempty 0).
Defined.

(** The scenario of the specification, run. *)
Example KMPSearch_scenario :
  KMPSearch 100 (str "daily standup notes about project apollo") (str "apollo")
    = Some true
  /\ KMPSearch 100 (str "daily standup notes about project apollo") (str "xyz")
    = Some false.
Proof. split; vm_compute; reflexivity. Qed.

(** * Full-text search *)

Lemma toLowerCase_length s : length (toLowerCase s) = length s.
Proof. apply length_map. Qed.

Lemma KMPSearch_full_text fuel searchText n :
  2 * (length (fullText n) + length searchText) < fuel ->
  KMPSearch fuel (toLowerCase (fullText n)) (toLowerCase searchText)
  = Some (bool_decide (full_text_match searchText n)).
Proof.
  intros Hfuel. destruct (decide (searchText = [])) as [->|Hne].
  - change (toLowerCase []) with (@nil ascii). rewrite KMPSearch_empty_pattern.
    by rewrite bool_decide_eq_false_2 by (by intros [? _]).
  - rewrite KMPSearch_correct.
    + f_equal. apply bool_decide_ext. unfold full_text_match. tauto.
    + by destruct searchText.
    + by rewrite !toLowerCase_length.
Qed.

Lemma searchNotesFullText_loop heap fuel searchText notes cout found :
  Forall (fun a => 2 * (length (fullText (heap a)) + length searchText) < fuel) notes ->
  fold_left
    (fun st note =>
       match st with
       | None => None
       | Some (cout, found) =>
           match
             KMPSearch fuel (toLowerCase (fullText (heap note))) (toLowerCase searchText)
           with
           | None => None
           | Some true => Some (cout ++ note_display (heap note) ++ endl, true)
           | Some false => Some (cout, found)
           end
       end)
    notes (Some (cout, found))
  = Some (cout ++ shown heap (filter (fun a => full_text_match searchText (heap a)) notes),
          found || negb (bool_decide
            (filter (fun a => full_text_match searchText (heap a)) notes = []))).
Proof.
  intros Hfuel. revert cout found.
  induction Hfuel as [|a notes Ha _ IH]; intros cout found.
  - simpl. by rewrite app_nil_r, orb_false_r.
  - cbn [fold_left]. rewrite KMPSearch_full_text by done. rewrite filter_cons.
    destruct (decide (full_text_match searchText (heap a))) as [Hm|Hm].
    + rewrite bool_decide_eq_true_2 by done. rewrite IH.
      unfold shown; simpl. rewrite orb_true_r. by rewrite <- !app_assoc.
    + rewrite bool_decide_eq_false_2 by done. by rewrite IH.
Qed.

Lemma searchNotesFullText_report heap fuel notes searchText :
  Forall (fun a => 2 * (length (fullText (heap a)) + length searchText) < fuel) notes ->
  searchNotesFullText heap fuel notes searchText
  = Some (full_text_report heap searchText
            (filter (fun a => full_text_match searchText (heap a)) notes)).
Proof.
  intros Hfuel. unfold searchNotesFullText, full_text_report.
  rewrite searchNotesFullText_loop by done. cbn [orb].
  destruct (decide (filter _ notes = [])) as [->|Hne].
  - simpl. by rewrite app_nil_r, <- !app_assoc.
  - rewrite bool_decide_eq_false_2 by done. simpl. by rewrite <- !app_assoc.
Qed.

(** [tolower] folds the 26 capital letters and nothing else. *)
Lemma tolower_lower_case c : tolower c = lower_case c.
Proof. destruct c as [[] [] [] [] [] [] [] []]; vm_compute; reflexivity. Qed.

Lemma toLowerCase_lower_text s : toLowerCase s = lower_text s.
Proof. apply map_ext, tolower_lower_case. Qed.

(** The text that [searchNotesFullText] builds. *)
Lemma fullText_haystack n : fullText n = haystack n.
Proof.
  unfold fullText, haystack.
  rewrite (fold_left_append (fun tag => tag ++ str " ")).
  cbn [map concat]. by rewrite <- !app_assoc.
Qed.

(** It is the fields separated by spaces, and one more space. *)
Lemma haystack_trailing_space n : haystack n = spec_haystack n ++ str " ".
Proof. apply concat_sep_join. Qed.

Lemma full_text_match_selects searchText n :
  full_text_match searchText n <-> full_text_selects searchText n.
Proof.
  unfold full_text_match, full_text_selects.
  by rewrite !toLowerCase_lower_text, fullText_haystack.
Qed.

(** C5, as the code has it: given fuel for the searches,
    [searchNotesFullText] displays exactly the notes for which the search
    text is not empty and, with its capital letters made small, occurs in the
    haystack with its capital letters made small; the haystack is the title,
    the description and the tags of the note, each followed by one space. *)
Theorem searchNotesFullText_spec (heap : addr -> Note) (fuel : nat)
  (notes : list addr) (searchText : text) :
  Forall (fun a => 2 * (length (haystack (heap a)) + length searchText) < fuel) notes ->
  searchNotesFullText heap fuel notes searchText
  = Some (full_text_report heap searchText
            (filter (fun a => full_text_selects searchText (heap a)) notes)).
Proof.
  intros Hfuel. rewrite searchNotesFullText_report.
  - do 2 f_equal. apply list_filter_iff. intros a. apply full_text_match_selects.
  - eapply Forall_impl; [exact Hfuel|]. intros a Ha. by rewrite fullText_haystack.
Qed.

Lemma searchNotesFullText_spec_witness :
  Forall (fun a => 2 * (length (haystack (scenario_notes a)) + length (str "APOLLO")) < 200)
    [0; 1]
  /\ searchNotesFullText scenario_notes 200 [0; 1] (str "APOLLO")
     = Some (full_text_report scenario_notes (str "APOLLO")
               (filter (fun a => full_text_selects (str "APOLLO") (scenario_notes a)) [0; 1])).
Proof.
  assert (Forall (fun a => 2 * (length (haystack (scenario_notes a))
                                + length (str "APOLLO")) < 200) [0; 1]) as H.
  { repeat constructor; vm_compute; lia. }
  split; [exact H|].
  apply (searchNotesFullText_spec scenario_notes 200 [0; 1] (str "APOLLO") H).
Defined.

(** C5 as stated fails: the haystack of the code ends with a space, so the
    search text "apollo " selects the note of the scenario, although it does
    not occur in title, description and tags separated by spaces. *)
Lemma searchNotesFullText_trailing_space :
  searchNotesFullText scenario_notes 200 [0] (str "apollo ")
  <> Some (full_text_report scenario_notes (str "apollo ")
             (filter (fun a => spec_full_text_match (str "apollo ") (scenario_notes a)) [0])).
Proof. vm_compute. discriminate. Qed.

(** The same, with what is selected on either side. *)
Example trailing_space_selected :
  searchNotesFullText scenario_notes 200 [0] (str "apollo ")
    = Some (full_text_report scenario_notes (str "apollo ") [0])
  /\ filter (fun a => spec_full_text_match (str "apollo ") (scenario_notes a)) [0] = [].
Proof. split; vm_compute; reflexivity. Qed.

(** The scenario of the specification: the haystack without its last space
    is "Daily Standup notes about Project Apollo"; "apollo" in any case is
    found, "xyz" is not, and the empty search text finds nothing. *)
Example full_text_scenario :
  spec_haystack (scenario_notes 0) = str "Daily Standup notes about Project Apollo"
  /\ full_text_selects (str "aPoLLo") (scenario_notes 0)
  /\ ~ full_text_selects (str "xyz") (scenario_notes 0)
  /\ searchNotesFullText scenario_notes 200 [0] []
     = Some (full_text_report scenario_notes [] []).
Proof.
  split; [reflexivity|]. split; [|split].
  - apply (bool_decide_eq_true_1 _). vm_compute. reflexivity.
  - apply (bool_decide_eq_false_1 _). vm_compute. reflexivity.
  - vm_compute. reflexivity.
Qed.

(** * Tokens of a line *)

Lemma read_until_Some delim s token rest :
  read_until delim s = (token, Some rest) ->
  s = token ++ delim :: rest /\ delim ∉ token.
Proof.
  revert token; induction s as [|c s IH]; intros token; simpl; [discriminate|].
  case_bool_decide as Hc.
  - intros [= <- <-]. subst c. split; [done|apply not_elem_of_nil].
  - destruct (read_until delim s) as [token' [rest'|]]; intros [= <- <-].
    destruct (IH _ eq_refl) as [-> Hnot]. split; [done|].
    apply not_elem_of_cons. split; [congruence|done].
Qed.

Lemma read_until_None delim s token :
  read_until delim s = (token, None) -> s = token /\ delim ∉ token.
Proof.
  revert token; induction s as [|c s IH]; intros token; simpl.
  - intros [= <-]. split; [done|apply not_elem_of_nil].
  - case_bool_decide as Hc; [discriminate|].
    destruct (read_until delim s) as [token' [rest'|]]; intros [= <-].
    destruct (IH _ eq_refl) as [-> Hnot]. split; [done|].
    apply not_elem_of_cons. split; [congruence|done].
Qed.

Lemma tokens_field delim cur token rest :
  delim ∉ token ->
  tokens delim cur (token ++ delim :: rest) = (cur ++ token) :: tokens delim [] rest.
Proof.
  revert cur; induction token as [|c token IH]; intros cur Hnot; simpl.
  - rewrite bool_decide_eq_true_2 by done. by rewrite app_nil_r.
  - apply not_elem_of_cons in Hnot as [Hc Hnot].
    rewrite bool_decide_eq_false_2 by congruence.
    rewrite IH by done. by rewrite <- app_assoc.
Qed.

Lemma tokens_last delim cur token :
  delim ∉ token ->
  tokens delim cur token = if decide (cur ++ token = []) then [] else [cur ++ token].
Proof.
  revert cur; induction token as [|c token IH]; intros cur Hnot; simpl.
  - by rewrite app_nil_r.
  - apply not_elem_of_cons in Hnot as [Hc Hnot].
    rewrite bool_decide_eq_false_2 by congruence.
    rewrite IH by done. by rewrite <- app_assoc.
Qed.

Lemma getline_loop_eof f delimiter ss token acc :
  eofbit ss = true -> getline_loop f delimiter ss token acc = acc.
Proof.
  intros Heof. rewrite getline_loop_equation_1. unfold getline. rewrite Heof. simpl.
  reflexivity.
Qed.

Lemma getline_istream_of s token delimiter :
  getline (istream_of s) token delimiter
  = match read_until delimiter s with
    | (tok, Some rest) => (istream_of rest, tok)
    | (tok, None) => (mkIstream [] true (bool_decide (tok = [])), tok)
    end.
Proof. reflexivity. Qed.

(** The [getline] loop pushes [f] of each token of the text. *)
Lemma getline_loop_tokens f delimiter n :
  forall s token acc, length s <= n ->
    getline_loop f delimiter (istream_of s) token acc
    = acc ++ map f (tokens delimiter [] s).
Proof.
  induction n as [|n IH]; intros s token acc Hn;
    rewrite getline_loop_equation_1, !getline_istream_of;
    destruct (read_until delimiter s) as [tok [rest|]] eqn:Hread;
    cbn [fst snd failbit istream_of].
  - apply read_until_Some in Hread as [-> _].
    rewrite length_app in Hn. simpl in Hn. lia.
  - apply read_until_None in Hread as [-> Hnot].
    destruct tok; [|simpl in Hn; lia].
    rewrite decide_False by (by rewrite bool_decide_eq_true_2).
    by rewrite app_nil_r.
  - apply read_until_Some in Hread as [-> Hnot].
    rewrite decide_True by done. cbv zeta.
    change (mkIstream rest false false) with (istream_of rest).
    rewrite IH by (rewrite length_app in Hn; simpl in Hn; lia).
    rewrite tokens_field by done. simpl. by rewrite <- app_assoc.
  - apply read_until_None in Hread as [-> Hnot].
    rewrite tokens_last by done. rewrite app_nil_l.
    destruct (decide (tok = [])) as [->|Hne].
    + rewrite decide_False by (by rewrite bool_decide_eq_true_2).
      by rewrite app_nil_r.
    + rewrite decide_True by (by rewrite bool_decide_eq_false_2).
      cbv zeta. by rewrite getline_loop_eof.
Qed.

Lemma split_tokens s delimiter : split s delimiter = tokens delimiter [] s.
Proof.
  unfold split. rewrite (getline_loop_tokens _ _ (length s)) by done.
  simpl. apply map_id.
Qed.

Lemma join_with_cons sep x y l :
  join_with sep (x :: y :: l) = x ++ sep ++ join_with sep (y :: l).
Proof. reflexivity. Qed.

Lemma tokens_join delimiter toks :
  Forall (fun t => delimiter ∉ t) toks -> last toks <> Some [] ->
  tokens delimiter [] (join_with [delimiter] toks) = toks.
Proof.
  induction 1 as [|x toks Hx Htoks IH]; intros Hlast; [done|].
  destruct toks as [|y toks].
  - simpl. rewrite tokens_last by done. simpl.
    rewrite decide_False; [done|]. intros ->. by apply Hlast.
  - rewrite join_with_cons. simpl.
    rewrite tokens_field by done. simpl. f_equal. by apply IH.
Qed.

(** X1: [split] undoes joining: tokens without the delimiter, the last of
    them not empty, joined by the delimiter, are split into themselves. *)
Theorem split_join (delimiter : ascii) (toks : list text) :
  Forall (fun t => delimiter ∉ t) toks -> last toks <> Some [] ->
  split (join_with [delimiter] toks) delimiter = toks.
Proof. intros Hall Hlast. rewrite split_tokens. by apply tokens_join. Qed.

Lemma split_join_witness :
  Forall (fun t => ","%char ∉ t) [str "work"; str ""; str "urgent"]
  /\ last [str "work"; str ""; str "urgent"] <> Some []
  /\ split (join_with [","%char] [str "work"; str ""; str "urgent"]) ","%char
     = [str "work"; str ""; str "urgent"].
Proof.
  assert (Forall (fun t => ","%char ∉ t) [str "work"; str ""; str "urgent"]) as H1.
  { repeat constructor; apply (bool_decide_eq_false_1 _); vm_compute; reflexivity. }
  assert (last [str "work"; str ""; str "urgent"] <> Some []) as H2 by (by vm_compute).
  split; [exact H1|]. split; [exact H2|].
  apply (split_join ","%char [str "work"; str ""; str "urgent"] H1 H2).
Defined.

Lemma tokens_no_delimiter delimiter s cur :
  delimiter ∉ cur -> Forall (fun t => delimiter ∉ t) (tokens delimiter cur s).
Proof.
  revert cur; induction s as [|c s IH]; intros cur Hcur; simpl.
  - case_decide; by repeat constructor.
  - case_bool_decide as Hc.
    + constructor; [done|]. apply IH, not_elem_of_nil.
    + apply IH. rewrite elem_of_app, list_elem_of_singleton. intros [?|?]; congruence.
Qed.

Lemma tokens_rejoin delimiter s cur :
  cur ++ s = join_with [delimiter] (tokens delimiter cur s)
  \/ cur ++ s = join_with [delimiter] (tokens delimiter cur s) ++ [delimiter].
Proof.
  revert cur; induction s as [|c s IH]; intros cur; simpl.
  - rewrite app_nil_r. case_decide; subst; by left.
  - case_bool_decide as Hc.
    + subst c. specialize (IH []). simpl in IH.
      destruct (tokens delimiter [] s) as [|y T] eqn:HT.
      * simpl in *. destruct IH as [->| ->]; [by right|].
        simpl in HT. rewrite bool_decide_eq_true_2 in HT by done. discriminate.
      * rewrite join_with_cons. destruct IH as [->| ->]; [left|right];
          by rewrite <- ?app_assoc.
    + specialize (IH (cur ++ [c])). by rewrite <- !app_assoc in IH.
Qed.

(** X2: [split] loses nothing but one delimiter at the end: its tokens
    hold no delimiter, and joined by the delimiter they give the text back,
    or the text without its final delimiter. *)
Theorem split_rejoin (s : text) (delimiter : ascii) :
  Forall (fun t => delimiter ∉ t) (split s delimiter)
  /\ (s = join_with [delimiter] (split s delimiter)
      \/ s = join_with [delimiter] (split s delimiter) ++ [delimiter]).
Proof.
  rewrite split_tokens. split.
  - apply tokens_no_delimiter, not_elem_of_nil.
  - apply (tokens_rejoin delimiter s []).
Qed.

(** * Notes read from the user and from the file *)

(** X3: the tags of a note made by [addNote] are the tokens that [split]
    finds in the line of tags, in order, each empty one replaced by
    "generic"; title and description are the lines entered. *)
Theorem addNote_tags (type : Z) (title_ description_ tagsInput password : text)
  (n : Note) :
  addNote type title_ description_ tagsInput password = Some n ->
  tags n = map generic_if_empty (split tagsInput ","%char)
  /\ note_item n = mkItem title_ description_.
Proof.
  unfold addNote.
  rewrite (getline_loop_tokens _ _ (length tagsInput)) by done.
  rewrite split_tokens, app_nil_l.
  repeat case_bool_decide; intros [= <-]; by split.
Qed.

Lemma addNote_tags_witness :
  addNote 1 (str "Idea") (str "later") (str "home,,garden,") []
  = Some (mkNote (mkItem (str "Idea") (str "later"))
            [str "home"; str "generic"; str "garden"] IsPublicNote)
  /\ tags (mkNote (mkItem (str "Idea") (str "later"))
             [str "home"; str "generic"; str "garden"] IsPublicNote)
     = map generic_if_empty (split (str "home,,garden,") ","%char)
  /\ note_item (mkNote (mkItem (str "Idea") (str "later"))
                  [str "home"; str "generic"; str "garden"] IsPublicNote)
     = mkItem (str "Idea") (str "later").
Proof.
  assert (addNote 1 (str "Idea") (str "later") (str "home,,garden,") []
          = Some (mkNote (mkItem (str "Idea") (str "later"))
                    [str "home"; str "generic"; str "garden"] IsPublicNote)) as H.
  { vm_compute. reflexivity. }
  split; [exact H|].
  apply (addNote_tags 1 (str "Idea") (str "later") (str "home,,garden,") [] _ H).
Defined.

Lemma tokens_nil delim cur s : tokens delim cur s = [] <-> cur = [] /\ s = [].
Proof.
  revert cur; induction s as [|c s IH]; intros cur; simpl.
  - destruct (decide (cur = [])); split; try done; by intros [? _].
  - case_bool_decide.
    + split; [done|by intros [_ ?]].
    + rewrite IH. split; [intros [Hcur _]|by intros [_ ?]].
      by destruct cur.
Qed.

(** X16: a note that [addNote] creates has no tag exactly when the line of
    tags is empty; every other line, even one of commas only, gives at least
    one tag. *)
Theorem addNote_no_tags_iff (type : Z) (title_ description_ tagsInput password : text)
  (n : Note) :
  addNote type title_ description_ tagsInput password = Some n ->
  tags n = [] <-> tagsInput = [].
Proof.
  unfold addNote.
  rewrite (getline_loop_tokens _ _ (length tagsInput)) by done.
  rewrite app_nil_l.
  assert (map (fun tag => if bool_decide (tag = []) then str "generic" else tag)
            (tokens ","%char [] tagsInput) = [] <-> tagsInput = []) as Hiff.
  { split.
    - intros H%map_eq_nil. by apply tokens_nil in H as [_ ?].
    - by intros ->. }
  repeat case_bool_decide; intros [= <-]; exact Hiff.
Qed.

Lemma addNote_no_tags_iff_witness :
  addNote 2 (str "Diary") (str "private") (str ",") (str "pw")
  = Some (mkNote (mkItem (str "Diary") (str "private")) [str "generic"]
            (IsProtectedNote (str "pw")))
  /\ (tags (mkNote (mkItem (str "Diary") (str "private")) [str "generic"]
              (IsProtectedNote (str "pw"))) = []
      <-> str "," = []).
Proof.
  assert (addNote 2 (str "Diary") (str "private") (str ",") (str "pw")
          = Some (mkNote (mkItem (str "Diary") (str "private")) [str "generic"]
                    (IsProtectedNote (str "pw")))) as H.
  { vm_compute. reflexivity. }
  split; [exact H|].
  apply (addNote_no_tags_iff 2 (str "Diary") (str "private") (str ",") (str "pw") _ H).
Defined.

Lemma load_line_one_tag vars line :
  tags_var_ok vars ->
  tags_var_ok (load_line vars line).1
  /\ forall n, (load_line vars line).2 = Some (LoadedNote n) -> length (tags n) <= 1.
Proof.
  unfold tags_var_ok, load_line. intros Hv.
  destruct (getline (istream_of line) (lv_type vars) ","%char) as [ss0 type].
  repeat (first
    [ match goal with
      | |- context [getline ?s ?v ?d] =>
          let H := fresh "Hg" in
          pose proof (getline_token d s v) as H;
          destruct (getline s v d) as [? ?]; simpl in H
      end
    | match goal with |- context [if ?b then _ else _] => destruct b end ]);
    simpl; (split; [by auto|]); intros n [= <-]; simpl;
    (rewrite split_no_delim by auto); case_decide; simpl; lia.
Qed.

Lemma load_lines_one_tag vars lines n :
  tags_var_ok vars -> LoadedNote n ∈ load_lines vars lines -> length (tags n) <= 1.
Proof.
  revert vars; induction lines as [|line lines IH]; intros vars Hv; simpl.
  - by intros ?%elem_of_nil.
  - destruct (load_line_one_tag vars line Hv) as [Hv' Hn].
    destruct (load_line vars line) as [vars' [item|]]; simpl in *.
    + intros [Heq|Hin]%elem_of_cons; [apply Hn; by rewrite Heq|]. by eapply IH.
    + by apply IH.
Qed.

(** X4: a note read by [loadDataFromFile] has at most one tag, whatever the
    file holds: the tags field ends at the first comma. *)
Theorem loadDataFromFile_one_tag (content : text) (n : Note) :
  LoadedNote n ∈ loadDataFromFile content -> length (tags n) <= 1.
Proof.
  intros Hin. eapply load_lines_one_tag; [|exact Hin]. apply not_elem_of_nil.
Qed.

Lemma loadDataFromFile_one_tag_witness :
  LoadedNote (mkNote (mkItem (str "Diary") (str "private")) [str "home"]
                (IsProtectedNote (str "garden,pw")))
    ∈ loadDataFromFile (str "ProtectedNote,Diary,private,home,garden,pw")
  /\ length (tags (mkNote (mkItem (str "Diary") (str "private")) [str "home"]
                     (IsProtectedNote (str "garden,pw")))) <= 1.
Proof.
  assert (LoadedNote (mkNote (mkItem (str "Diary") (str "private")) [str "home"]
                        (IsProtectedNote (str "garden,pw")))
            ∈ loadDataFromFile (str "ProtectedNote,Diary,private,home,garden,pw")) as H.
  { vm_compute. apply list_elem_of_here. }
  split; [exact H|].
  apply (loadDataFromFile_one_tag _ _ H).
Defined.

Lemma read_until_field delim token rest :
  delim ∉ token -> read_until delim (token ++ delim :: rest) = (token, Some rest).
Proof.
  induction token as [|c token IH]; intros Hnot; simpl.
  - by rewrite bool_decide_eq_true_2.
  - apply not_elem_of_cons in Hnot as [Hc Hnot].
    rewrite bool_decide_eq_false_2 by congruence. by rewrite IH.
Qed.

Lemma getline_field delim token rest s :
  delim ∉ token ->
  getline (mkIstream (token ++ delim :: rest) false false) s delim
  = (mkIstream rest false false, token).
Proof. intros Hnot. unfold getline. simpl. by rewrite read_until_field. Qed.

Lemma getline_rest delim token s :
  delim ∉ token ->
  getline (mkIstream token false false) s delim
  = (mkIstream [] true (bool_decide (token = [])), token).
Proof. intros Hnot. unfold getline. simpl. by rewrite read_until_no_delim. Qed.

Lemma tokens_lines (ls : list text) :
  Forall (fun l => newline ∉ l) ls ->
  tokens newline [] (concat (map (fun l => l ++ [newline]) ls)) = ls.
Proof.
  induction 1 as [|l ls Hl _ IH]; [done|]. simpl.
  rewrite <- app_assoc. simpl. rewrite tokens_field by done. by rewrite IH.
Qed.

Lemma split_one_tag (tg : list text) :
  length tg <= 1 -> Forall (fun t => t <> [] /\ (","%char ∉ t) /\ (newline ∉ t)) tg ->
  (","%char ∉ concat tg) /\ (newline ∉ concat tg) /\ split (concat tg) ","%char = tg.
Proof.
  intros Hlen Htg. destruct tg as [|t [|? ?]]; [| |simpl in Hlen; lia].
  - simpl. split; [apply not_elem_of_nil|]. split; [apply not_elem_of_nil|].
    by rewrite split_no_delim by apply not_elem_of_nil.
  - apply Forall_cons_1 in Htg as [(Hne & Hc & Hn) _]. simpl. rewrite app_nil_r.
    split; [done|]. split; [done|]. rewrite split_no_delim by done.
    by rewrite decide_False.
Qed.

Lemma kind_no_comma v : ","%char ∉ note_kind v.
Proof. destruct v; apply (bool_decide_eq_false_1 _); vm_compute; reflexivity. Qed.

Ltac eval_kind_tests :=
  repeat match goal with
    | |- context [bool_decide (str ?a = str ?b)] =>
        let r := eval vm_compute in (bool_decide (str a = str b)) in
        change (bool_decide (str a = str b)) with r
    end.

Lemma load_line_note vars (n : Note) :
  storable n -> (load_line vars (note_line n)).2 = Some (LoadedNote n).
Proof.
  destruct n as [[t d] tg v]. unfold storable, note_line.
  cbn [note_item tags note_variant title description].
  intros (Ht & _ & Hd & _ & Hlen & Htg & Hpw).
  destruct (split_one_tag tg Hlen Htg) as (Hc & _ & Hsplit).
  unfold load_line, istream_of. change (str ",") with [","%char].
  pose proof (kind_no_comma v) as Hkind.
  destruct v as [|pw|]; cbn [note_kind app] in *;
    rewrite getline_field by done; cbv beta iota zeta; eval_kind_tests; cbn [orb];
    rewrite (getline_field _ t) by done; cbv beta iota zeta;
    rewrite (getline_field _ d) by done; cbv beta iota zeta.
  - rewrite app_nil_r, getline_rest by done. cbn [snd]. by rewrite Hsplit.
  - rewrite (getline_field _ (concat tg)) by done. cbv beta iota zeta.
    rewrite getline_rest by done. cbn [snd]. by rewrite Hsplit.
  - rewrite app_nil_r, getline_rest by done. cbn [snd]. by rewrite Hsplit.
Qed.

Lemma load_lines_notes (ns : list Note) :
  Forall storable ns ->
  forall vars, load_lines vars (map note_line ns) = map LoadedNote ns.
Proof.
  induction 1 as [|n ns Hn _ IH]; intros vars; [done|]. simpl.
  pose proof (load_line_note vars n Hn) as Hline.
  destruct (load_line vars (note_line n)) as [vars' item]. simpl in Hline.
  subst item. by rewrite IH.
Qed.

Lemma note_line_no_newline (n : Note) : storable n -> newline ∉ note_line n.
Proof.
  destruct n as [[t d] tg v]. unfold storable, note_line.
  cbn [note_item tags note_variant title description].
  intros (_ & Ht & _ & Hd & Hlen & Htg & Hpw).
  destruct (split_one_tag tg Hlen Htg) as (_ & Hn & _).
  assert (newline ∉ note_kind v) as Hkind.
  { destruct v; apply (bool_decide_eq_false_1 _); vm_compute; reflexivity. }
  assert (newline ∉ str ",") as Hcomma.
  { apply (bool_decide_eq_false_1 _); vm_compute; reflexivity. }
  rewrite !elem_of_app. destruct v; rewrite ?elem_of_app; try rewrite elem_of_nil; tauto.
Qed.

(** X5: writing notes to the data file and reading them back gives the
    same notes, in order, when each note is one a line can hold (at most
    one tag, no comma or line feed inside a field). *)
Theorem loadDataFromFile_notes_file (ns : list Note) :
  Forall storable ns ->
  loadDataFromFile (notes_file ns) = map LoadedNote ns.
Proof.
  intros Hns. unfold loadDataFromFile, notes_file.
  rewrite split_tokens.
  rewrite <- (map_map note_line (fun l => l ++ [newline])).
  rewrite tokens_lines.
  - by apply load_lines_notes.
  - apply Forall_map. eapply Forall_impl; [exact Hns|].
    intros n. apply note_line_no_newline.
Qed.

Lemma loadDataFromFile_notes_file_witness :
  Forall storable stored_notes
  /\ loadDataFromFile (notes_file stored_notes) = map LoadedNote stored_notes.
Proof.
  assert (Forall storable stored_notes) as H.
  { unfold stored_notes, storable.
    repeat constructor;
      first [ apply (bool_decide_eq_false_1 _); vm_compute; reflexivity
            | vm_compute; lia
            | by vm_compute ]. }
  split; [exact H|]. apply (loadDataFromFile_notes_file stored_notes H).
Defined.

(** * Full-text search, continued *)

Lemma lower_text_length s : length (lower_text s) = length s.
Proof. apply length_map. Qed.

Lemma full_text_selects_case searchText searchText' n :
  lower_text searchText = lower_text searchText' ->
  full_text_selects searchText n <-> full_text_selects searchText' n.
Proof.
  intros Heq. unfold full_text_selects. rewrite Heq.
  assert (length searchText = length searchText') as Hlen.
  { by rewrite <- (lower_text_length searchText), Heq, lower_text_length. }
  assert (searchText = [] <-> searchText' = []) as Hnil.
  { destruct searchText, searchText'; simpl in Hlen; try lia; done. }
  tauto.
Qed.

(** X6: the full-text search ignores the case of the search text: two
    search texts that are the same once their capital letters A to Z are
    made small select the same notes. *)
Theorem searchNotesFullText_case (heap : addr -> Note) (fuel : nat)
  (notes : list addr) (searchText searchText' : text) :
  lower_text searchText = lower_text searchText' ->
  Forall (fun a => 2 * (length (haystack (heap a)) + length searchText) < fuel) notes ->
  exists selected,
    searchNotesFullText heap fuel notes searchText
      = Some (full_text_report heap searchText selected)
    /\ searchNotesFullText heap fuel notes searchText'
      = Some (full_text_report heap searchText' selected).
Proof.
  intros Heq Hfuel.
  assert (Forall (fun a => 2 * (length (fullText (heap a)) + length searchText) < fuel)
            notes) as Hfuel'.
  { eapply Forall_impl; [exact Hfuel|]. intros a Ha. by rewrite fullText_haystack. }
  exists (filter (fun a => full_text_selects searchText (heap a)) notes). split.
  - rewrite searchNotesFullText_report by done.
    do 2 f_equal. apply list_filter_iff. intros a. apply full_text_match_selects.
  - rewrite searchNotesFullText_report.
    + do 2 f_equal. apply list_filter_iff. intros a.
      rewrite full_text_match_selects. symmetry. by apply full_text_selects_case.
    + assert (length searchText' = length searchText) as ->; [|done].
      by rewrite <- (lower_text_length searchText'), <- Heq, lower_text_length.
Qed.

Lemma searchNotesFullText_case_witness :
  lower_text (str "APOLLO") = lower_text (str "Apollo")
  /\ Forall (fun a => 2 * (length (haystack (scenario_notes a)) + length (str "APOLLO")) < 200)
       [0; 1]
  /\ exists selected,
       searchNotesFullText scenario_notes 200 [0; 1] (str "APOLLO")
         = Some (full_text_report scenario_notes (str "APOLLO") selected)
       /\ searchNotesFullText scenario_notes 200 [0; 1] (str "Apollo")
         = Some (full_text_report scenario_notes (str "Apollo") selected).
Proof.
  assert (lower_text (str "APOLLO") = lower_text (str "Apollo")) as H1
    by (vm_compute; reflexivity).
  assert (Forall (fun a => 2 * (length (haystack (scenario_notes a))
                                + length (str "APOLLO")) < 200) [0; 1]) as H2.
  { repeat constructor; vm_compute; lia. }
  split; [exact H1|]. split; [exact H2|].
  apply (searchNotesFullText_case scenario_notes 200 [0; 1] _ _ H1 H2).
Defined.

Lemma filter_sublist_impl {A} (P Q : A -> Prop)
  `{forall x, Decision (P x)} `{forall x, Decision (Q x)} (l : list A) :
  (forall x, P x -> Q x) -> filter P l `sublist_of` filter Q l.
Proof.
  intros HPQ. induction l as [|x l IH]; [done|]. rewrite !filter_cons.
  destruct (decide (P x)) as [HP|HP].
  - rewrite decide_True by auto. by apply sublist_skip.
  - destruct (decide (Q x)); [by apply sublist_cons|done].
Qed.

Lemma occurs_app_middle (pre pattern post : text) : occurs pattern (pre ++ pattern ++ post).
Proof. by exists pre, post. Qed.

Lemma tag_in_fullText tag n :
  tag ∈ tags n -> occurs (toLowerCase tag) (toLowerCase (fullText n)).
Proof.
  intros (l1 & l2 & Htags)%list_elem_of_split.
  assert (exists pre post, fullText n = pre ++ tag ++ post) as (pre & post & ->).
  { unfold fullText.
    rewrite (fold_left_append (fun t => t ++ str " ")), Htags.
    rewrite map_app, concat_app. simpl.
    exists ((title (note_item n) ++ str " " ++ description (note_item n) ++ str " ")
            ++ concat (map (fun t => t ++ str " ") l1)),
      (str " " ++ concat (map (fun t => t ++ str " ") l2)).
    change (str " ") with [" "%char]. simpl. by rewrite <- !app_assoc. }
  unfold toLowerCase. rewrite !map_app. apply occurs_app_middle.
Qed.

(** X7: what the tag search finds, the full-text search for the same
    non-empty text finds too: the notes carrying the tag are, in order,
    among the notes that [searchNotesFullText] selects for it. *)
Theorem searchNotesFullText_finds_tags (heap : addr -> Note) (fuel : nat)
  (notes : list addr) (tag : text) :
  tag <> [] ->
  Forall (fun a => 2 * (length (fullText (heap a)) + length tag) < fuel) notes ->
  exists selected,
    searchNotesFullText heap fuel notes tag
      = Some (full_text_report heap tag selected)
    /\ with_tag heap tag notes `sublist_of` selected.
Proof.
  intros Hne Hfuel.
  exists (filter (fun a => full_text_match tag (heap a)) notes). split.
  - by apply searchNotesFullText_report.
  - apply filter_sublist_impl. intros a Ha. split; [done|].
    by apply tag_in_fullText.
Qed.

Lemma searchNotesFullText_finds_tags_witness :
  str "urgent" <> []
  /\ Forall (fun a => 2 * (length (fullText (scenario_tagged a)) + length (str "urgent")) < 100)
       [0; 1]
  /\ exists selected,
       searchNotesFullText scenario_tagged 100 [0; 1] (str "urgent")
         = Some (full_text_report scenario_tagged (str "urgent") selected)
       /\ with_tag scenario_tagged (str "urgent") [0; 1] `sublist_of` selected.
Proof.
  assert (str "urgent" <> []) as H1 by (by vm_compute).
  assert (Forall (fun a => 2 * (length (fullText (scenario_tagged a))
                                + length (str "urgent")) < 100) [0; 1]) as H2.
  { repeat constructor; vm_compute; lia. }
  split; [exact H1|]. split; [exact H2|].
  apply (searchNotesFullText_finds_tags scenario_tagged 100 [0; 1] _ H1 H2).
Defined.

(** * The failure table, in terms of prefixes and suffixes *)

Lemma border_suffix (pattern : text) k b :
  k <= length pattern ->
  border pattern k b <-> b < k /\ take b pattern `suffix_of` take k pattern.
Proof.
  intros Hk. split.
  - intros [Hb Hborder]. split; [done|]. exists (take (k - b) pattern).
    apply list_eq; intros i.
    destruct (decide (i < k - b)) as [Hi|Hi].
    + rewrite lookup_app_l by (rewrite length_take; lia).
      by rewrite !lookup_take_lt by lia.
    + rewrite lookup_app_r by (rewrite length_take; lia).
      rewrite length_take, Nat.min_l by lia.
      destruct (decide (i < k)) as [Hik|Hik].
      * rewrite !lookup_take_lt by lia. rewrite (Hborder (i - (k - b))) by lia.
        f_equal; lia.
      * by rewrite !lookup_take_ge by lia.
  - intros [Hb [pre Hpre]]. split; [done|]. intros x Hx.
    assert (length pre = k - b) as Hlen.
    { apply (f_equal length) in Hpre.
      rewrite length_app, !length_take in Hpre. lia. }
    rewrite <- (lookup_take_lt pattern k (k - b + x)) by lia.
    rewrite Hpre, lookup_app_r by lia.
    rewrite Hlen. replace (k - b + x - (k - b)) with x by lia.
    by rewrite lookup_take_lt.
Qed.

(** X8: given fuel, [computeKMPTable] returns a table as long as the
    pattern whose entry [k] is the length of the longest proper prefix of
    [pattern[0..k]] that is also a suffix of it. *)
Theorem computeKMPTable_longest_prefix_suffix (fuel : nat) (pattern : text) :
  pattern <> [] -> 2 * length pattern < fuel ->
  exists lps,
    computeKMPTable fuel pattern = Some lps
    /\ length lps = length pattern
    /\ forall k, k < length pattern ->
         lps !!! k <= k
         /\ take (lps !!! k) pattern `suffix_of` take (S k) pattern
         /\ forall b, b <= k -> take b pattern `suffix_of` take (S k) pattern ->
              b <= lps !!! k.
Proof.
  intros Hne Hfuel.
  destruct (computeKMPTable_spec fuel pattern Hne Hfuel) as (lps & Hrun & Hlen & Htable).
  exists lps. split; [done|]. split; [done|]. intros k Hk.
  destruct (Htable k Hk) as [Hborder Hmax].
  apply border_suffix in Hborder as [Hlt Hsuffix]; [|lia].
  split; [lia|]. split; [done|]. intros b Hb Hbs.
  apply Hmax. apply border_suffix; [lia|]. split; [lia|done].
Qed.

Lemma computeKMPTable_longest_prefix_suffix_witness :
  str "aabaaab" <> [] /\ 2 * length (str "aabaaab") < 100
  /\ exists lps,
       computeKMPTable 100 (str "aabaaab") = Some lps
       /\ length lps = length (str "aabaaab")
       /\ forall k, k < length (str "aabaaab") ->
            lps !!! k <= k
            /\ take (lps !!! k) (str "aabaaab") `suffix_of` take (S k) (str "aabaaab")
            /\ forall b, b <= k ->
                 take b (str "aabaaab") `suffix_of` take (S k) (str "aabaaab") ->
                 b <= lps !!! k.
Proof.
  assert (str "aabaaab" <> []) as H1 by (by vm_compute).
  assert (2 * length (str "aabaaab") < 100) as H2 by (vm_compute; lia).
  split; [exact H1|]. split; [exact H2|].
  apply (computeKMPTable_longest_prefix_suffix 100 (str "aabaaab") H1 H2).
Defined.

(** * Sifting, merging and sorting a part of the vector *)

Lemma heapify_frame heap goals n i k :
  n <= length goals -> k < i \/ n <= k ->
  heapify heap goals n i !! k = goals !! k.
Proof.
  revert goals i. apply (heapify_ind heap n (fun goals i =>
    n <= length goals -> k < i \/ n <= k ->
    heapify heap goals n i !! k = goals !! k)).
  intros goals i IH Hn Hk. rewrite heapify_step.
  destruct (decide _) as [Hne|]; [|done].
  destruct (heapify_largest_range heap goals n i) as [?|[Hc Hlt]]; [done|].
  rewrite IH by (rewrite ?swap_length; lia).
  rewrite swap_lookup by lia. unfold transpose. by rewrite !decide_False by lia.
Qed.

(** X9: [heapify] sifts down.  When no progress lies below the sentinel and
    every node of [goals[0..n)] after [i] satisfies the max-heap condition,
    then after [heapify(goals, n, i)] every node from [i] on satisfies it;
    the vector is permuted, and nothing before [i] or from [n] on moves. *)
Theorem heapify_restores_heap (heap : addr -> Goal) (goals : list addr) (n i : nat) :
  n <= length goals -> no_progress_below_sentinel heap goals -> i < n ->
  (forall k, i < k -> k < n -> heap_at heap goals n k) ->
  (forall k, i <= k -> k < n -> heap_at heap (heapify heap goals n i) n k)
  /\ heapify heap goals n i ≡ₚ goals
  /\ forall k, k < i \/ n <= k -> heapify heap goals n i !! k = goals !! k.
Proof.
  intros Hn Hall Hi Hheap. split; [|split].
  - apply (heapify_heap heap n i); [done|done|lia|done| |].
    + intros k Hk1 Hk2 Hk3. apply Hheap; lia.
    + intros p c Hp Hip. lia.
  - by apply heapify_Permutation.
  - intros k Hk. by apply heapify_frame.
Qed.

Lemma heapify_restores_heap_witness :
  4 <= length [0; 1; 2; 3]
  /\ no_progress_below_sentinel scenario_goals [0; 1; 2; 3]
  /\ 0 < 4
  /\ (forall k, 0 < k -> k < 4 -> heap_at scenario_goals [0; 1; 2; 3] 4 k)
  /\ ((forall k, 0 <= k -> k < 4 ->
         heap_at scenario_goals (heapify scenario_goals [0; 1; 2; 3] 4 0) 4 k)
      /\ heapify scenario_goals [0; 1; 2; 3] 4 0 ≡ₚ [0; 1; 2; 3]
      /\ forall k, k < 0 \/ 4 <= k ->
           heapify scenario_goals [0; 1; 2; 3] 4 0 !! k = [0; 1; 2; 3] !! k).
Proof.
  assert (4 <= length [0; 1; 2; 3]) as H1 by (simpl; lia).
  assert (no_progress_below_sentinel scenario_goals [0; 1; 2; 3]) as H2.
  { repeat constructor; by vm_compute. }
  assert (0 < 4) as H3 by lia.
  assert (forall k, 0 < k -> k < 4 -> heap_at scenario_goals [0; 1; 2; 3] 4 k) as H4.
  { intros k Hk1 Hk2 c Hc Hcn.
    assert (k = 1 /\ c = 3) as [-> ->] by lia. by vm_compute. }
  split; [exact H1|]. split; [exact H2|]. split; [exact H3|]. split; [exact H4|].
  apply (heapify_restores_heap scenario_goals [0; 1; 2; 3] 4 0 H1 H2 H3 H4).
Defined.

(** X10: [merge] merges two adjacent runs.  When [tasks[left..mid]] and
    [tasks[mid+1..right]] are each sorted by priority, [merge] leaves the
    rest of the vector alone and fills [tasks[left..right]] with the tasks
    of the two runs sorted by priority, those of equal priority in the
    order left run first. *)
Theorem merge_sorted_runs (heap : addr -> Task) (pre l r post : list addr) :
  StronglySorted (fun a b => (priority (heap a) <= priority (heap b))%Z) l ->
  StronglySorted (fun a b => (priority (heap a) <= priority (heap b))%Z) r ->
  exists s,
    merge heap (pre ++ l ++ r ++ post) (Z.of_nat (length pre))
      (Z.of_nat (length pre + length l) - 1)
      (Z.of_nat (length pre + length l + length r) - 1)
    = pre ++ s ++ post
    /\ StronglySorted (fun a b => (priority (heap a) <= priority (heap b))%Z) s
    /\ s ≡ₚ l ++ r
    /\ forall p : Z,
         filter (fun a => priority (heap a) = p) s
         = filter (fun a => priority (heap a) = p) l
           ++ filter (fun a => priority (heap a) = p) r.
Proof.
  intros Hl Hr.
  assert (forall a b, (priority (heap a) <= priority (heap b))%Z
                      <-> key_before heap priority_le a b) as Hkey.
  { intros a b. unfold key_before, priority_le. by rewrite Z.leb_le. }
  assert (StronglySorted (key_before heap priority_le) l) as Hl'.
  { eapply StronglySorted_impl; [|exact Hl]. intros a b. apply Hkey. }
  assert (StronglySorted (key_before heap priority_le) r) as Hr'.
  { eapply StronglySorted_impl; [|exact Hr]. intros a b. apply Hkey. }
  exists (lmerge heap priority_le l r). split; [|split; [|split]].
  - unfold merge. by apply merge_by_spec.
  - eapply StronglySorted_impl;
      [|apply (lmerge_sorted heap priority_le priority_le_total priority_le_trans);
        [exact Hl'|exact Hr']].
    intros a b. apply Hkey.
  - apply lmerge_Permutation.
  - intros p.
    apply (lmerge_filter heap priority_le priority_le_total priority_le_trans);
      [|done].
    intros a b Ha Hb. apply Hkey. lia.
Qed.

Lemma merge_sorted_runs_witness :
  StronglySorted (fun a b => (priority (scenario_tasks a)
                              <= priority (scenario_tasks b))%Z) [1; 0]
  /\ StronglySorted (fun a b => (priority (scenario_tasks a)
                                 <= priority (scenario_tasks b))%Z) [2]
  /\ exists s,
       merge scenario_tasks ([7] ++ [1; 0] ++ [2] ++ [8]) (Z.of_nat (length [7]))
         (Z.of_nat (length [7] + length [1; 0]) - 1)
         (Z.of_nat (length [7] + length [1; 0] + length [2]) - 1)
       = [7] ++ s ++ [8]
       /\ StronglySorted (fun a b => (priority (scenario_tasks a)
                                      <= priority (scenario_tasks b))%Z) s
       /\ s ≡ₚ [1; 0] ++ [2]
       /\ forall p : Z,
            filter (fun a => priority (scenario_tasks a) = p) s
            = filter (fun a => priority (scenario_tasks a) = p) [1; 0]
              ++ filter (fun a => priority (scenario_tasks a) = p) [2].
Proof.
  assert (StronglySorted (fun a b => (priority (scenario_tasks a)
                                      <= priority (scenario_tasks b))%Z) [1; 0]) as H1.
  { repeat constructor. simpl. lia. }
  assert (StronglySorted (fun a b => (priority (scenario_tasks a)
                                      <= priority (scenario_tasks b))%Z) [2]) as H2.
  { repeat constructor. }
  split; [exact H1|]. split; [exact H2|].
  apply (merge_sorted_runs scenario_tasks [7] [1; 0] [2] [8] H1 H2).
Defined.

(** X11: [mergeSort] and [mergeSortByDeadline] on a part of the vector:
    called with [left] and [right] they reorder [tasks[left..right]] only,
    into stably sorted order, for any such part, an empty one included. *)
Theorem mergeSort_range (heap : addr -> Task) (pre seg post : list addr) :
  (exists s,
     mergeSort heap (pre ++ seg ++ post) (Z.of_nat (length pre))
       (Z.of_nat (length pre + length seg) - 1)
     = pre ++ s ++ post
     /\ StronglySorted (fun a b => (priority (heap a) <= priority (heap b))%Z) s
     /\ s ≡ₚ seg
     /\ forall p : Z,
          filter (fun a => priority (heap a) = p) s
          = filter (fun a => priority (heap a) = p) seg)
  /\ (exists s,
        mergeSortByDeadline heap (pre ++ seg ++ post) (Z.of_nat (length pre))
          (Z.of_nat (length pre + length seg) - 1)
        = pre ++ s ++ post
        /\ StronglySorted (fun a b => lex_le (deadline (heap a)) (deadline (heap b))) s
        /\ s ≡ₚ seg
        /\ forall d : text,
             filter (fun a => deadline (heap a) = d) s
             = filter (fun a => deadline (heap a) = d) seg).
Proof.
  split.
  - destruct (mergeSort_by_spec heap priority_le priority_le_total priority_le_trans
                (length seg) seg pre post (pre ++ seg ++ post)
                (Z.of_nat (length pre)) (Z.of_nat (length pre + length seg) - 1)%Z)
      as (s & Hs & Hsorted & Hperm & Hstable); [done..|].
    exists s. split; [exact Hs|]. split; [|split; [done|]].
    + eapply StronglySorted_impl; [|exact Hsorted].
      intros a b. unfold key_before, priority_le. by rewrite Z.leb_le.
    + intros p. apply Hstable. intros a b Ha Hb.
      unfold key_before, priority_le. rewrite Z.leb_le. lia.
  - destruct (mergeSort_by_spec heap deadline_le deadline_le_total deadline_le_trans
                (length seg) seg pre post (pre ++ seg ++ post)
                (Z.of_nat (length pre)) (Z.of_nat (length pre + length seg) - 1)%Z)
      as (s & Hs & Hsorted & Hperm & Hstable); [done..|].
    exists s. split; [exact Hs|]. split; [|split; [done|]].
    + eapply StronglySorted_impl; [|exact Hsorted].
      intros a b. unfold key_before, deadline_le. by rewrite text_le_lex.
    + intros d. apply Hstable. intros a b Ha Hb.
      unfold key_before, deadline_le. rewrite Ha, Hb. apply text_le_refl.
Qed.

(** * Viewing protected notes *)

Lemma getline_password ss :
  ((getline ss [] newline).2 = []
   \/ (getline ss [] newline).2 ∈ tokens newline [] (buf ss))
  /\ forall t, t ∈ tokens newline [] (buf (getline ss [] newline).1) ->
       t ∈ tokens newline [] (buf ss).
Proof.
  unfold getline. destruct (eofbit ss || failbit ss); [by split; [left|]|].
  destruct (read_until newline (buf ss)) as [tok [rest|]] eqn:Hread; simpl.
  - apply read_until_Some in Hread as [-> Hnot].
    rewrite tokens_field by done. simpl. split.
    + right. apply list_elem_of_here.
    + intros t Ht. by apply list_elem_of_further.
  - apply read_until_None in Hread as [-> Hnot].
    rewrite tokens_last by done. simpl. split.
    + destruct (decide (tok = [])); [by left|right; apply list_elem_of_here].
    + by intros t ?%elem_of_nil.
Qed.

Lemma handleNotes_protected_loop_denied heap (typed : list text) notes :
  forall ss cout,
    (forall t, t ∈ tokens newline [] (buf ss) -> t ∈ typed) ->
    Forall (fun a => forall pw, password_of (heap a) = Some pw ->
                      pw <> [] /\ pw ∉ typed) notes ->
    exists ss',
      handleNotes_protected_loop heap notes ss cout
      = (ss', cout ++ concat (map (refusal heap) (protected_of heap notes)), false).
Proof.
  induction notes as [|a notes IH]; intros ss cout Htyped Hall.
  - exists ss. simpl. by rewrite app_nil_r.
  - apply Forall_cons_1 in Hall as [Ha Hall]. cbn [handleNotes_protected_loop].
    unfold protected_of in *. rewrite filter_cons. unfold password_of in *.
    destruct (note_variant (heap a)) as [|pw|] eqn:Hv.
    + rewrite decide_False by (by intros [? ?]). by apply IH.
    + rewrite decide_True by done.
      destruct (getline_password ss) as [Hinput Hrest].
      destruct (getline ss [] newline) as [ss1 passwordInput]. cbn [fst snd] in *.
      destruct (Ha pw eq_refl) as [Hne Hnot].
      rewrite bool_decide_eq_false_2.
      * edestruct (IH ss1) as (ss' & Heq); [by auto|done|].
        rewrite Heq. exists ss'. do 2 f_equal.
        cbn [map concat]. unfold refusal. by rewrite <- !app_assoc.
      * intros ->. destruct Hinput as [?|Hin]; [done|]. by apply Hnot, Htyped.
    + rewrite decide_False by (by intros [? ?]). by apply IH.
Qed.

(** X12: without a password there is no access.  When no protected note
    has an empty password or a password that is one of the lines left on
    [cin] after the pending line, case 3 of [handleNotes] writes the prompt
    and the refusal for each protected note and the no-access line, and the
    details of no note. *)
Theorem handleNotes_protected_denied (heap : addr -> Note) (notes : list addr)
  (cin : istream) :
  Forall (fun a => forall pw, password_of (heap a) = Some pw ->
                    pw <> [] /\ pw ∉ split (buf (ignore_line cin)) newline) notes ->
  (handleNotes_protected heap notes cin).2
  = (tab :: str "Protected Notes Details:" ++ [newline; newline])
    ++ concat (map (refusal heap) (protected_of heap notes))
    ++ nl "No access granted to any protected notes with given passwords."
    ++ [newline].
Proof.
  intros Hall. unfold handleNotes_protected.
  destruct (handleNotes_protected_loop_denied heap
              (split (buf (ignore_line cin)) newline) notes (ignore_line cin)
              (tab :: str "Protected Notes Details:" ++ [newline; newline]))
    as (ss' & ->); [|done|].
  - intros t Ht. by rewrite split_tokens.
  - cbn [negb snd]. by rewrite <- app_assoc.
Qed.

Lemma handleNotes_protected_denied_witness :
  Forall (fun a => forall pw, password_of (scenario_protected a) = Some pw ->
            pw <> []
            /\ pw ∉ split (buf (ignore_line (istream_of (newline :: str "guess")))) newline)
    [0; 1]
  /\ (handleNotes_protected scenario_protected [0; 1]
        (istream_of (newline :: str "guess"))).2
     = (tab :: str "Protected Notes Details:" ++ [newline; newline])
       ++ concat (map (refusal scenario_protected) (protected_of scenario_protected [0; 1]))
       ++ nl "No access granted to any protected notes with given passwords."
       ++ [newline].
Proof.
  assert (Forall (fun a => forall pw, password_of (scenario_protected a) = Some pw ->
            pw <> []
            /\ pw ∉ split (buf (ignore_line (istream_of (newline :: str "guess")))) newline)
            [0; 1]) as H.
  { constructor; [|constructor; [|constructor]];
      intros pw Hpw; vm_compute in Hpw; try discriminate;
      injection Hpw as <-; (split; [by vm_compute|]);
      apply (bool_decide_eq_false_1 _); vm_compute; reflexivity. }
  split; [exact H|].
  apply (handleNotes_protected_denied scenario_protected [0; 1] _ H).
Defined.

(** The right password, typed for the note, opens it. *)
Example handleNotes_protected_granted :
  (handleNotes_protected scenario_protected [1; 0]
     (istream_of (newline :: str "secret"))).2
  = (tab :: str "Protected Notes Details:" ++ [newline; newline])
    ++ nl "Enter password to view " ++ str "Diary"
    ++ str "(HINT: password123 for Personal Diary, if you want to access other protected notes you've created please press ENTER): "
    ++ nl "Access granted to: " ++ str "Diary" ++ [newline]
    ++ note_getDetails (scenario_protected 0) ++ endl ++ endl.
Proof. vm_compute. reflexivity. Qed.

(** * Case folding and the size of the catalog *)

Lemma tolower_idempotent c : tolower (tolower c) = tolower c.
Proof. destruct c as [[] [] [] [] [] [] [] []]; vm_compute; reflexivity. Qed.

(** X13: [toLowerCase] keeps the length of the text and is idempotent:
    folding a folded text changes nothing. *)
Theorem toLowerCase_idempotent (s : text) :
  length (toLowerCase s) = length s
  /\ toLowerCase (toLowerCase s) = toLowerCase s.
Proof.
  split; [apply toLowerCase_length|].
  unfold toLowerCase. rewrite map_map. apply map_ext. intros c.
  apply tolower_idempotent.
Qed.

Lemma load_lines_length vars lines :
  length (load_lines vars lines) <= length lines.
Proof.
  revert vars; induction lines as [|line lines IH]; intros vars; simpl; [lia|].
  destruct (load_line vars line) as [vars' [item|]]; simpl.
  - specialize (IH vars'). lia.
  - specialize (IH vars'). lia.
Qed.

Lemma tokens_length delimiter s cur :
  length (tokens delimiter cur s) <= S (length s).
Proof.
  revert cur; induction s as [|c s IH]; intros cur; simpl.
  - case_decide; simpl; lia.
  - case_bool_decide; simpl; [specialize (IH [])|specialize (IH (cur ++ [c]))]; lia.
Qed.

(** X14: [loadDataFromFile] adds at most one item for each line of the
    file, so never more items than the file has characters plus one. *)
Theorem loadDataFromFile_length (content : text) :
  length (loadDataFromFile content) <= length (split content newline)
  /\ length (split content newline) <= S (length content).
Proof.
  split.
  - apply load_lines_length.
  - rewrite split_tokens. apply tokens_length.
Qed.
